(** * Financial_Planner: the month-by-month simulation engine

    A shallow embedding of [finance_manager.py] and of the entity classes
    it drives ([incomes.py], [expenses.py], [investments.py], [events.py],
    [targets.py]), followed by the properties of the engine.

    Conventions of the embedding.
    - A Python object held in one of the engine's lists is addressed by
      its position in that list; a method that mutates [self] becomes a
      function returning the updated record, written back at that
      position.
    - Methods of [FinanceManager] run in the monad [M]: they thread the
      interpreter state (the engine and NumPy's process-wide generator)
      and may raise.  A raised exception keeps the state reached so far,
      as in Python.
    - Numbers are exact rationals extended with the IEEE special values,
      tagged with their run-time class ([float]/[int] of the language, or
      [numpy.float64]): rounding error is abstracted away, the difference
      between the two classes on a division by zero is not. *)

From Stdlib Require Import ZArith QArith Qround Qabs String Ascii List Lia Lqa.
From stdpp Require Import base option list.

Set Default Proof Using "Type".
Local Open Scope Z_scope.

(** ** Numbers *)

Module Num.

(** The value of a binary64, without rounding: a rational or one of
    the three special values. *)
Inductive float : Type :=
| Finite (q : Q)
| PosInf
| NegInf
| NaN.

(** A number together with its run-time class.  [Py] stands for the
    built-in [int], [float] and [bool]; [Np] for [numpy.float64], which
    is what [np.random.choice] returns and what any arithmetic with such
    a value returns. *)
Inductive num : Type :=
| Py (x : float)
| Np (x : float).

Definition val (x : num) : float :=
  match x with Py v | Np v => v end.

Definition is_np (x : num) : bool :=
  match x with Py _ => false | Np _ => true end.

Definition of_Z (z : Z) : num := Py (Finite (inject_Z z)).

(** [dec n d] is the literal [n/d], e.g. [dec 5 100] for [0.05]. *)
Definition dec (n : Z) (d : positive) : num := Py (Finite (Qred (n # d))).

Definition Qltb (a b : Q) : bool := negb (Qle_bool b a).

Definition fneg (a : float) : float :=
  match a with
  | Finite q => Finite (Qred (- q))
  | PosInf => NegInf
  | NegInf => PosInf
  | NaN => NaN
  end.

Definition fadd (a b : float) : float :=
  match a, b with
  | NaN, _ | _, NaN => NaN
  | Finite x, Finite y => Finite (Qred (x + y))
  | PosInf, NegInf | NegInf, PosInf => NaN
  | PosInf, _ | _, PosInf => PosInf
  | NegInf, _ | _, NegInf => NegInf
  end.

Definition fsub (a b : float) : float := fadd a (fneg b).

(** The sign of an infinity multiplied by a finite factor. *)
Definition scale_inf (pos : bool) (q : Q) : float :=
  if Qeq_bool q 0 then NaN
  else if xorb pos (Qltb 0 q) then NegInf else PosInf.

Definition fmul (a b : float) : float :=
  match a, b with
  | NaN, _ | _, NaN => NaN
  | Finite x, Finite y => Finite (Qred (x * y))
  | PosInf, Finite q | Finite q, PosInf => scale_inf true q
  | NegInf, Finite q | Finite q, NegInf => scale_inf false q
  | PosInf, PosInf | NegInf, NegInf => PosInf
  | PosInf, NegInf | NegInf, PosInf => NegInf
  end.

(** IEEE division; a finite value divided by zero is an infinity of
    its sign, and [0/0] is [NaN]. *)
Definition fdiv (a b : float) : float :=
  match a, b with
  | NaN, _ | _, NaN => NaN
  | Finite x, Finite y =>
      if Qeq_bool y 0
      then (if Qeq_bool x 0 then NaN
            else if Qltb 0 x then PosInf else NegInf)
      else Finite (Qred (x / y))
  | Finite _, (PosInf | NegInf) => Finite 0
  | (PosInf | NegInf), (PosInf | NegInf) => NaN
  | PosInf, Finite q => if Qltb q 0 then NegInf else PosInf
  | NegInf, Finite q => if Qltb q 0 then PosInf else NegInf
  end.

Definition fabs (a : float) : float :=
  match a with
  | Finite q => Finite (Qred (Qabs q))
  | PosInf | NegInf => PosInf
  | NaN => NaN
  end.

(** Comparisons; every comparison with [NaN] is false. *)
Definition flt (a b : float) : bool :=
  match a, b with
  | NaN, _ | _, NaN => false
  | Finite x, Finite y => Qltb x y
  | NegInf, (Finite _ | PosInf) => true
  | Finite _, PosInf => true
  | _, _ => false
  end.

Definition feq (a b : float) : bool :=
  match a, b with
  | Finite x, Finite y => Qeq_bool x y
  | PosInf, PosInf | NegInf, NegInf => true
  | _, _ => false
  end.

Definition fle (a b : float) : bool := flt a b || feq a b.

(** Rounding to the nearest integer, ties to the even one. *)
Definition round_half_even (q : Q) : Z :=
  let lo := Qfloor q in
  let twice := Qred (2 * (q - inject_Z lo)) in
  if Qltb twice 1 then lo
  else if Qltb 1 twice then lo + 1
  else if Z.even lo then lo else lo + 1.

(** [round(x, 2)] *)
Definition fround2 (a : float) : float :=
  match a with
  | Finite q => Finite (Qred (round_half_even (q * 100) # 100))
  | other => other
  end.

(** The class of the result of an arithmetic operation: NumPy's as
    soon as one operand is NumPy's. *)
Definition lift2 (op : float -> float -> float) (x y : num) : num :=
  (if is_np x || is_np y then Np else Py) (op (val x) (val y)).

Definition lift1 (op : float -> float) (x : num) : num :=
  match x with Py v => Py (op v) | Np v => Np (op v) end.

Definition add := lift2 fadd.
Definition sub := lift2 fsub.
Definition mul := lift2 fmul.
Definition abs := lift1 fabs.
Definition round2 := lift1 fround2.

Definition ltb (x y : num) : bool := flt (val x) (val y).
Definition leb (x y : num) : bool := fle (val x) (val y).
Definition gtb (x y : num) : bool := flt (val y) (val x).
Definition geb (x y : num) : bool := fle (val y) (val x).
Definition eqb (x y : num) : bool := feq (val x) (val y).

Definition is_zero (x : num) : bool := feq (val x) (Finite 0).

(** [x / y].  The language raises [ZeroDivisionError] when both
    operands are built-in numbers and [y] is zero; NumPy returns an
    infinity or [NaN] instead (and only warns).  [None] is the raise. *)
Definition div (x y : num) : option num :=
  if negb (is_np x || is_np y) && is_zero y then None
  else Some (lift2 fdiv x y).

(** The built-ins [max(a, b)] and [min(a, b)] return the first
    argument unless the second one is strictly better. *)
Definition max (a b : num) : num := if gtb b a then b else a.
Definition min (a b : num) : num := if ltb b a then b else a.

Definition zero : num := of_Z 0.
Definition one : num := of_Z 1.

(** [sum(xs)]: starts from the integer [0]. *)
Definition sum (xs : list num) : num := fold_left add xs zero.

(** The sign of a value, [None] for [NaN]. *)
Definition fsign (a : float) : option comparison :=
  match a with
  | Finite q => Some (Qcompare q 0)
  | PosInf => Some Gt
  | NegInf => Some Lt
  | NaN => None
  end.

Definition sign (x : num) : option comparison := fsign (val x).

End Num.

Import Num (num, Py, Np, Finite, PosInf, NegInf, NaN).

Local Open Scope string_scope.
Local Open Scope Z_scope.
Local Open Scope list_scope.

(** ** Exceptions *)

(** The three exception classes the engine can raise.  [ValueError] is
    raised by the engine's own checks and carries their message;
    [AttributeError] and [ZeroDivisionError] are raised by the
    interpreter (attribute access on [None] or on an object without the
    attribute, assignment to a property without setter, division of
    built-in numbers by zero). *)
Inductive exception : Type :=
| ValueError (msg : string)
| AttributeError
| ZeroDivisionError.

(** ** incomes.py *)

Module Income.

Record t : Type := mk {
  name : string;
  amount : num;
  recurrence : Z;
  inc : bool;
  increment_rate : num;
  active : bool
}.

Definition init (name : string) (amount : num) (recurrence : Z)
    (inc : bool) (increment_rate : num) : t :=
  mk name amount recurrence inc
     (if inc then increment_rate else Num.zero) true.

Definition receive (self : t) : num :=
  if active self then amount self else Num.zero.

Definition set_amount (a : num) (self : t) : t :=
  mk (name self) a (recurrence self) (inc self) (increment_rate self)
     (active self).

Definition apply_increment (self : t) : t :=
  if inc self && active self
  then set_amount
         (Num.mul (amount self) (Num.add Num.one (increment_rate self)))
         self
  else self.

Definition delete (self : t) : t :=
  mk (name self) (amount self) (recurrence self) (inc self)
     (increment_rate self) false.

Definition is_active (self : t) : bool := active self.

(** [None] is the [ZeroDivisionError] of [amount / recurrence]. *)
Definition monthly_equivalent (self : t) : option num :=
  if active self then Num.div (amount self) (Num.of_Z (recurrence self))
  else Some Num.zero.

End Income.

(** ** expenses.py *)

Module Expense.

Record t : Type := mk {
  name : string;
  amount : num;
  recurrence : Z;
  inc : bool;
  increment_rate : num;
  active : bool
}.

Definition init (name : string) (amount : num) (recurrence : Z)
    (inc : bool) (increment_rate : num) : t :=
  mk name amount recurrence inc
     (if inc then increment_rate else Num.zero) true.

Definition charge (self : t) : num :=
  if active self then amount self else Num.zero.

Definition set_amount (a : num) (self : t) : t :=
  mk (name self) a (recurrence self) (inc self) (increment_rate self)
     (active self).

Definition apply_increment (self : t) : t :=
  if inc self && active self
  then set_amount
         (Num.mul (amount self) (Num.add Num.one (increment_rate self)))
         self
  else self.

Definition delete (self : t) : t :=
  mk (name self) (amount self) (recurrence self) (inc self)
     (increment_rate self) false.

Definition is_active (self : t) : bool := active self.

Definition monthly_equivalent (self : t) : option num :=
  if active self then Num.div (amount self) (Num.of_Z (recurrence self))
  else Some Num.zero.

End Expense.

(** ** NumPy's process-wide generator *)

Module NpRandom.

(** The state of [np.random]: the sequence of uniform samples of
    [[0, 1)] it is going to deliver and the number already consumed.
    Which sequence a seed selects is the Mersenne Twister's business
    and stays a parameter of the engine's constructor. *)
Record RandomState : Type := mk {
  samples : nat -> Q;
  consumed : nat
}.

Definition next (st : RandomState) : Q * RandomState :=
  (samples st (consumed st), mk (samples st) (S (consumed st))).

(** [np.random.seed(s)], for the sequence [seq] of [s] *)
Definition seed (seq : nat -> Q) : RandomState := mk seq 0.

(** [np.random.rand()]: one sample, a built-in float. *)
Definition rand (st : RandomState) : num * RandomState :=
  let (u, st') := next st in (Py (Finite u), st').

(** The first value whose cumulative weight exceeds [u]; the last
    value if none does. *)
Fixpoint pick (a p : list Q) (acc u : Q) (last : Q) : Q :=
  match a, p with
  | x :: a', w :: p' =>
      let acc' := Qred (acc + w) in
      if Num.Qltb u acc' then x else pick a' p' acc' u x
  | _, _ => last
  end.

(** [np.random.choice(a=..., p=...)]: one uniform sample, looked up
    in the cumulative weights; the result is a [numpy.float64]. *)
Definition choice (a p : list Q) (st : RandomState) : num * RandomState :=
  let (u, st') := next st in (Np (Finite (pick a p 0 u 0)), st').

End NpRandom.

(** ** investments.py *)

Module Investment.

Record t : Type := mk {
  name : string;
  amount : num;
  strt_amount : num;
  yearly_return_rate : num;
  volatility : num;
  dividend_per : num;
  active : bool
}.

Definition init (name : string) (amount yearly_return_rate volatility
    dividend_per : num) : t :=
  mk name amount amount yearly_return_rate volatility dividend_per true.

Definition set_amount (a : num) (self : t) : t :=
  mk (name self) a (strt_amount self) (yearly_return_rate self)
     (volatility self) (dividend_per self) (active self).

Definition add_funds (add_amount : num) (self : t) : t :=
  if active self then set_amount (Num.add (amount self) add_amount) self
  else self.

(** The jump sizes of a shock and their probabilities. *)
Definition rates : list Q := [5 # 100; 1 # 10; 15 # 100; 2 # 10; 3 # 10].
Definition rate_weights : list Q :=
  [6 # 10; 2 # 10; 125 # 1000; 5 # 100; 25 # 1000].

(** The body of the shock: [self.amount *= abs(dir + rate)]. *)
Definition shock (dir rate : num) (self : t) : t :=
  set_amount (Num.mul (amount self) (Num.abs (Num.add dir rate))) self.

Definition revaluation (self : t) (st : NpRandom.RandomState)
    : t * NpRandom.RandomState :=
  if active self then
    let (u, st1) := NpRandom.rand st in
    if Num.gtb (volatility self) u then
      let (v, st2) := NpRandom.rand st1 in
      let dir := if Num.gtb v (Num.dec 5 10)
                 then Num.of_Z 1 else Num.of_Z (-1) in
      let (rate, st3) := NpRandom.choice rates rate_weights st2 in
      (shock dir rate self, st3)
    else (self, st1)
  else (self, st).

Definition yearly_increase (self : t) : t :=
  if active self
  then set_amount
         (Num.mul (amount self) (Num.add Num.one (yearly_return_rate self)))
         self
  else self.

(** The inactive branch returns [False], which is the integer 0 in
    the arithmetic that follows. *)
Definition dividend (self : t) : num :=
  if active self then Num.mul (amount self) (dividend_per self)
  else Num.zero.

Definition delete (self : t) : t :=
  mk (name self) (amount self) (strt_amount self)
     (yearly_return_rate self) (volatility self) (dividend_per self) false.

Definition is_active (self : t) : bool := active self.

End Investment.

(** ** events.py *)

Module Event.

(** The closure returned by [make_event_action], given by the four
    variables it captures. *)
Record Action : Type := mkAction {
  obj_type : string;
  obj_name : string;
  operation : string;
  value : num
}.

Record t : Type := mk {
  name : string;
  trigger_month : Z;
  action : Action;
  executed : bool
}.

Definition init (name : string) (trigger_month : Z) (action : Action) : t :=
  mk name trigger_month action false.

Definition set_executed (b : bool) (self : t) : t :=
  mk (name self) (trigger_month self) (action self) b.

End Event.

(** ** targets.py *)

Module Target.

(** The [check_function] of a target: one of the engine's aggregates
    ("used by Targets" in [finance_manager.py]), called on the engine. *)
Inductive Metric : Type :=
| total_monthly_income_equivalent
| total_monthly_expense_equivalent
| total_investments
| total_dividends_monthly_equivalent.

Record t : Type := mk {
  name : string;
  check_function : Metric;
  goal_value : num
}.

Definition init (name : string) (check_function : Metric)
    (goal_value : num) : t :=
  mk name check_function goal_value.

End Target.

(** ** The engine's state *)

(** One entry of a snapshot's ["targets"] list:
    [(target_name, current_value, progress_percent, reached_bool)]. *)
Definition TargetStatus : Type := (string * num * num * bool)%type.

Module Snapshot.

Record t : Type := mk {
  month : Z;
  cash : num;
  income : num;
  expense : num;
  dividends : num;
  invested : num;
  investments_total : num;
  targets : list TargetStatus
}.

End Snapshot.

Module FinanceManager.

Record t : Type := mk {
  month : Z;
  cash : num;
  incomes : list Income.t;
  expenses : list Expense.t;
  investments : list Investment.t;
  events : list Event.t;
  targets : list Target.t;
  reinvest_dividends : bool;
  invest_sweep_rate : num;
  allocation : list (string * num);
  history : list Snapshot.t
}.

End FinanceManager.

(** The interpreter state a method call runs in: the engine it is
    called on and the generator of [np.random].  [calls] is an
    observation added for the proofs: the positions, in the engine's
    event list, of the events whose action has been called so far, latest
    first.  Nothing reads it. *)
Record World : Type := mkWorld {
  np_random : NpRandom.RandomState;
  self : FinanceManager.t;
  calls : list nat
}.

(** ** The monad of method calls *)

Inductive outcome (A : Type) : Type :=
| Returned (a : A)
| Raised (e : exception).
Arguments Returned {A} a.
Arguments Raised {A} e.

Definition M (A : Type) : Type := World -> outcome A * World.

Definition ret {A} (a : A) : M A := fun w => (Returned a, w).

Definition bind {A B} (m : M A) (f : A -> M B) : M B :=
  fun w =>
    match m w with
    | (Returned a, w') => f a w'
    | (Raised e, w') => (Raised e, w')
    end.

Definition raise {A} (e : exception) : M A := fun w => (Raised e, w).

Declare Scope py_scope.
Delimit Scope py_scope with py.
Notation "x <- m ;; k" := (bind m (fun x => k))
  (at level 100, m at next level, right associativity) : py_scope.
Notation "m ;;; k" := (bind m (fun _ => k))
  (at level 100, right associativity) : py_scope.
Local Open Scope py_scope.

Definition gets {A} (f : FinanceManager.t -> A) : M A :=
  fun w => (Returned (f (self w)), w).

(** An assignment to attributes of the engine. *)
Definition update (f : FinanceManager.t -> FinanceManager.t) : M unit :=
  fun w => (Returned tt, mkWorld (np_random w) (f (self w)) (calls w)).

(** A computation that uses the generator. *)
Definition draw {A} (f : NpRandom.RandomState -> A * NpRandom.RandomState)
    : M A :=
  fun w => let (a, st) := f (np_random w) in
           (Returned a, mkWorld st (self w) (calls w)).

Definition observe_call (i : nat) : M unit :=
  fun w => (Returned tt, mkWorld (np_random w) (self w) (i :: calls w)).

(** A division inside a method. *)
Definition divide (x y : num) : M num :=
  match Num.div x y with
  | Some q => ret q
  | None => raise ZeroDivisionError
  end.

Definition from_option {A} (o : option A) (e : exception) : M A :=
  match o with Some a => ret a | None => raise e end.

(** [for i in range(start, start + n)], with the local variables the
    body assigns in [acc]. *)
Fixpoint for_range {A} (n start : nat) (body : nat -> A -> M A) (acc : A)
    : M A :=
  match n with
  | O => ret acc
  | S n' => acc' <- body start acc ;; for_range n' (S start) body acc'
  end.

(** [for x in xs], for a list the body does not change. *)
Fixpoint for_each {X A} (xs : list X) (body : X -> A -> M A) (acc : A)
    : M A :=
  match xs with
  | [] => ret acc
  | x :: xs' => acc' <- body x acc ;; for_each xs' body acc'
  end.

(** Attribute assignments on the engine. *)
Module Set_.
Import FinanceManager.

Definition month (v : Z) (s : t) : t :=
  mk v (cash s) (incomes s) (expenses s) (investments s) (events s)
     (targets s) (reinvest_dividends s) (invest_sweep_rate s)
     (allocation s) (history s).
Definition cash (v : num) (s : t) : t :=
  mk (FinanceManager.month s) v (incomes s) (expenses s) (investments s)
     (events s) (targets s) (reinvest_dividends s) (invest_sweep_rate s)
     (allocation s) (history s).
Definition incomes (v : list Income.t) (s : t) : t :=
  mk (FinanceManager.month s) (FinanceManager.cash s) v (expenses s)
     (investments s) (events s) (targets s) (reinvest_dividends s)
     (invest_sweep_rate s) (allocation s) (history s).
Definition expenses (v : list Expense.t) (s : t) : t :=
  mk (FinanceManager.month s) (FinanceManager.cash s)
     (FinanceManager.incomes s) v (investments s) (events s) (targets s)
     (reinvest_dividends s) (invest_sweep_rate s) (allocation s)
     (history s).
Definition investments (v : list Investment.t) (s : t) : t :=
  mk (FinanceManager.month s) (FinanceManager.cash s)
     (FinanceManager.incomes s) (FinanceManager.expenses s) v (events s)
     (targets s) (reinvest_dividends s) (invest_sweep_rate s)
     (allocation s) (history s).
Definition events (v : list Event.t) (s : t) : t :=
  mk (FinanceManager.month s) (FinanceManager.cash s)
     (FinanceManager.incomes s) (FinanceManager.expenses s)
     (FinanceManager.investments s) v (targets s) (reinvest_dividends s)
     (invest_sweep_rate s) (allocation s) (history s).
Definition targets (v : list Target.t) (s : t) : t :=
  mk (FinanceManager.month s) (FinanceManager.cash s)
     (FinanceManager.incomes s) (FinanceManager.expenses s)
     (FinanceManager.investments s) (FinanceManager.events s) v
     (reinvest_dividends s) (invest_sweep_rate s) (allocation s)
     (history s).
Definition history (v : list Snapshot.t) (s : t) : t :=
  mk (FinanceManager.month s) (FinanceManager.cash s)
     (FinanceManager.incomes s) (FinanceManager.expenses s)
     (FinanceManager.investments s) (FinanceManager.events s)
     (FinanceManager.targets s) (reinvest_dividends s)
     (invest_sweep_rate s) (allocation s) v.

End Set_.

(** ** finance_manager.py *)

(** [str.lower()], on ASCII. *)
Definition lower_ascii (c : ascii) : ascii :=
  let n := N_of_ascii c in
  if ((65 <=? n) && (n <=? 90))%N then ascii_of_N (n + 32) else c.

Fixpoint lower (s : string) : string :=
  match s with
  | EmptyString => EmptyString
  | String c s' => String (lower_ascii c) (lower s')
  end.

(** What [_is_due] reads of its argument, an income or an expense. *)
Class Recurring (T : Type) : Type := {
  flow_is_active : T -> bool;
  flow_recurrence : T -> Z
}.

#[export] Instance Income_Recurring : Recurring Income.t :=
  {| flow_is_active := Income.is_active;
     flow_recurrence := Income.recurrence |}.

#[export] Instance Expense_Recurring : Recurring Expense.t :=
  {| flow_is_active := Expense.is_active;
     flow_recurrence := Expense.recurrence |}.

(** The keys of the [mapping] dictionary of [get_object] and
    [delete_object]. *)
Inductive Kind : Type := income | expense | investment | event | target.

Definition mapping (obj_type : string) : option Kind :=
  if String.eqb obj_type "income" then Some income
  else if String.eqb obj_type "expense" then Some expense
  else if String.eqb obj_type "investment" then Some investment
  else if String.eqb obj_type "event" then Some event
  else if String.eqb obj_type "target" then Some target
  else None.

Definition unknown_obj_type (obj_type : string) : exception :=
  ValueError
    (String.append "Unknown obj_type '"
       (String.append obj_type
          (String.append "'. Must be one of "
             "['income', 'expense', 'investment', 'event', 'target']"))).

(** A reference to an object of the engine: its collection and its
    position there. *)
Inductive Ref : Type :=
| IncomeAt (i : nat)
| ExpenseAt (i : nat)
| InvestmentAt (i : nat)
| EventAt (i : nat)
| TargetAt (i : nat).

(** The position of the first element satisfying [p]: where
    [next((x for x in l if p(x)), None)] and the scanning loops of
    [get_object] and [delete_object] stop. *)
Fixpoint first_index {T} (p : T -> bool) (l : list T) : option nat :=
  match l with
  | [] => None
  | x :: l' => if p x then Some O else S <$> first_index p l'
  end.

(** *** Adders *)

Definition _validate_recurrence (recurrence : Z) (kind : string) : M unit :=
  if recurrence <? 1
  then raise (ValueError
               (String.append kind ".recurrence must be an integer >= 1"))
  else ret tt.

Definition add_income (income : Income.t) : M unit :=
  _validate_recurrence (Income.recurrence income) "Income" ;;;
  update (fun s => Set_.incomes (FinanceManager.incomes s ++ [income]) s).

Definition add_expense (expense : Expense.t) : M unit :=
  _validate_recurrence (Expense.recurrence expense) "Expense" ;;;
  update (fun s => Set_.expenses (FinanceManager.expenses s ++ [expense]) s).

Definition add_investment (investment : Investment.t) : M unit :=
  update (fun s =>
    Set_.investments (FinanceManager.investments s ++ [investment]) s).

Definition add_event (event : Event.t) : M unit :=
  update (fun s => Set_.events (FinanceManager.events s ++ [event]) s).

Definition add_target (target : Target.t) : M unit :=
  update (fun s => Set_.targets (FinanceManager.targets s ++ [target]) s).

(** *** Helpers *)

(** [obj.is_active and (self.month % obj.recurrence == 0)]; the
    remainder is only evaluated for an active object, and raises for a
    zero recurrence. *)
Definition _is_due {T} `{Recurring T} (obj : T) : M bool :=
  if flow_is_active obj then
    month <- gets FinanceManager.month ;;
    if flow_recurrence obj =? 0 then raise ZeroDivisionError
    else ret (month mod flow_recurrence obj =? 0)
  else ret false.

(** The object at position [i] of a collection, for a loop over it. *)
Definition item {T} (coll : FinanceManager.t -> list T) (i : nat)
    : M (option T) :=
  gets (fun s => coll s !! i).

Definition _apply_increments_if_cycle_end : M unit :=
  n <- gets (fun s => length (FinanceManager.incomes s)) ;;
  for_range n 0 (fun i _ =>
    o <- item FinanceManager.incomes i ;;
    match o with
    | Some inc =>
        due <- _is_due inc ;;
        if due && Income.inc inc
        then update (fun s =>
               Set_.incomes
                 (<[i := Income.apply_increment inc]>
                    (FinanceManager.incomes s)) s)
        else ret tt
    | None => ret tt
    end) tt ;;;
  n <- gets (fun s => length (FinanceManager.expenses s)) ;;
  for_range n 0 (fun i _ =>
    o <- item FinanceManager.expenses i ;;
    match o with
    | Some exp =>
        due <- _is_due exp ;;
        if due && Expense.inc exp
        then update (fun s =>
               Set_.expenses
                 (<[i := Expense.apply_increment exp]>
                    (FinanceManager.expenses s)) s)
        else ret tt
    | None => ret tt
    end) tt.

(** *** Aggregates (used by Targets) *)

Definition twelve : num := Num.of_Z 12.

(** [sum(f(x) for x in xs if keep(x))] *)
Definition sum_of {X} (xs : list X) (keep : X -> bool) (f : X -> M num)
    : M num :=
  for_each xs (fun x acc =>
    if keep x then v <- f x ;; ret (Num.add acc v) else ret acc) Num.zero.

Definition total_dividends_monthly_equivalent : M num :=
  invs <- gets FinanceManager.investments ;;
  sum_of invs Investment.is_active
    (fun inv => divide (Investment.dividend inv) twelve).

Definition total_monthly_income_equivalent : M num :=
  reinvest <- gets FinanceManager.reinvest_dividends ;;
  div <- (if negb reinvest then total_dividends_monthly_equivalent
          else ret Num.zero) ;;
  incs <- gets FinanceManager.incomes ;;
  inc <- sum_of incs Income.is_active
           (fun i => from_option (Income.monthly_equivalent i)
                       ZeroDivisionError) ;;
  ret (Num.add div inc).

Definition total_monthly_expense_equivalent : M num :=
  exps <- gets FinanceManager.expenses ;;
  sum_of exps Expense.is_active
    (fun e => from_option (Expense.monthly_equivalent e) ZeroDivisionError).

Definition total_investments : M num :=
  invs <- gets FinanceManager.investments ;;
  sum_of invs Investment.is_active (fun inv => ret (Investment.amount inv)).

(** *** targets.py, the methods *)

Definition call_metric (f : Target.Metric) : M num :=
  match f with
  | Target.total_monthly_income_equivalent => total_monthly_income_equivalent
  | Target.total_monthly_expense_equivalent =>
      total_monthly_expense_equivalent
  | Target.total_investments => total_investments
  | Target.total_dividends_monthly_equivalent =>
      total_dividends_monthly_equivalent
  end.

Definition hundred : num := Num.of_Z 100.

Definition Target_status (t : Target.t) : M (num * num) :=
  current_value <- call_metric (Target.check_function t) ;;
  ratio <- divide current_value (Target.goal_value t) ;;
  let progress := Num.min hundred (Num.mul ratio hundred) in
  ret (current_value, progress).

Definition Target_is_reached (t : Target.t) : M bool :=
  st <- Target_status t ;;
  ret (Num.geb (fst st) (Target.goal_value t)).

Definition _targets_status : M (list TargetStatus) :=
  ts <- gets FinanceManager.targets ;;
  for_each ts (fun t statuses =>
    st <- Target_status t ;;
    reached <- Target_is_reached t ;;
    ret (statuses ++ [(Target.name t, fst st, snd st, reached)])) [].

(** *** Convenience API (used by events/actions) *)

Definition get_income (name : string) : M (option nat) :=
  gets (fun s => first_index
    (fun i => String.eqb (Income.name i) name && Income.is_active i)
    (FinanceManager.incomes s)).

Definition get_expense (name : string) : M (option nat) :=
  gets (fun s => first_index
    (fun e => String.eqb (Expense.name e) name && Expense.is_active e)
    (FinanceManager.expenses s)).

Definition get_investment (name : string) : M (option nat) :=
  gets (fun s => first_index
    (fun v => String.eqb (Investment.name v) name && Investment.is_active v)
    (FinanceManager.investments s)).

(** The loop of [get_object] over one collection: the first object
    with the name which either has no [is_active] or is active. *)
Definition lookup (k : Kind) (obj_name : string) (s : FinanceManager.t)
    : option Ref :=
  match k with
  | income =>
      IncomeAt <$> first_index
        (fun o => String.eqb (Income.name o) obj_name && Income.is_active o)
        (FinanceManager.incomes s)
  | expense =>
      ExpenseAt <$> first_index
        (fun o => String.eqb (Expense.name o) obj_name && Expense.is_active o)
        (FinanceManager.expenses s)
  | investment =>
      InvestmentAt <$> first_index
        (fun o => String.eqb (Investment.name o) obj_name
                  && Investment.is_active o)
        (FinanceManager.investments s)
  | event =>
      EventAt <$> first_index
        (fun o => String.eqb (Event.name o) obj_name)
        (FinanceManager.events s)
  | target =>
      TargetAt <$> first_index
        (fun o => String.eqb (Target.name o) obj_name)
        (FinanceManager.targets s)
  end.

(** The result is [None] where the method returns [None]. *)
Definition get_object (obj_type obj_name : string) : M (option Ref) :=
  let obj_type := lower obj_type in
  match mapping obj_type with
  | None => raise (unknown_obj_type obj_type)
  | Some k => gets (lookup k obj_name)
  end.

(** The loop of [delete_object] over one collection: the position of
    the first object with the name, active or not. *)
Definition position (k : Kind) (obj_name : string) (s : FinanceManager.t)
    : option nat :=
  match k with
  | income =>
      first_index (fun o => String.eqb (Income.name o) obj_name)
        (FinanceManager.incomes s)
  | expense =>
      first_index (fun o => String.eqb (Expense.name o) obj_name)
        (FinanceManager.expenses s)
  | investment =>
      first_index (fun o => String.eqb (Investment.name o) obj_name)
        (FinanceManager.investments s)
  | event =>
      first_index (fun o => String.eqb (Event.name o) obj_name)
        (FinanceManager.events s)
  | target =>
      first_index (fun o => String.eqb (Target.name o) obj_name)
        (FinanceManager.targets s)
  end.

(** [hasattr(obj, "is_active")] for the objects of a collection. *)
Definition has_is_active (k : Kind) : bool :=
  match k with
  | income | expense | investment => true
  | event | target => false
  end.

(** [collection.pop(i)] *)
Definition pop (k : Kind) (i : nat) (s : FinanceManager.t)
    : FinanceManager.t :=
  match k with
  | event => Set_.events (delete i (FinanceManager.events s)) s
  | target => Set_.targets (delete i (FinanceManager.targets s)) s
  | _ => s
  end.

(** For an object with [is_active] the method executes
    [obj.is_active = False].  In all three classes [is_active] is a
    property defined with a getter only, so the assignment raises
    [AttributeError] and nothing is changed. *)
Definition delete_object (obj_type obj_name : string) : M bool :=
  let obj_type := lower obj_type in
  match mapping obj_type with
  | None => raise (unknown_obj_type obj_type)
  | Some k =>
      found <- gets (position k obj_name) ;;
      match found with
      | Some i =>
          (if has_is_active k then raise AttributeError
           else update (pop k i)) ;;;
          ret true
      | None => ret false
      end
  end.

(** *** make_event_action *)

Definition make_event_action (obj_type obj_name operation : string)
    (value : num) : Event.Action :=
  Event.mkAction obj_type obj_name operation value.

(** [obj.amount = f(obj.amount)].  [None], an event and a target have
    no [amount]: reading it raises. *)
Definition assign_amount (obj : option Ref) (f : num -> num) : M unit :=
  match obj with
  | Some (IncomeAt i) =>
      update (fun s => Set_.incomes
        (alter (fun o => Income.set_amount (f (Income.amount o)) o) i
           (FinanceManager.incomes s)) s)
  | Some (ExpenseAt i) =>
      update (fun s => Set_.expenses
        (alter (fun o => Expense.set_amount (f (Expense.amount o)) o) i
           (FinanceManager.expenses s)) s)
  | Some (InvestmentAt i) =>
      update (fun s => Set_.investments
        (alter (fun o => Investment.set_amount (f (Investment.amount o)) o) i
           (FinanceManager.investments s)) s)
  | Some (EventAt _) | Some (TargetAt _) | None => raise AttributeError
  end.

(** The body of the closure, [action(fm)]. *)
Definition call_action (a : Event.Action) : M unit :=
  let value := Event.value a in
  let operation := Event.operation a in
  obj <- get_object (Event.obj_type a) (Event.obj_name a) ;;
  if String.eqb operation "add" then
    assign_amount obj (fun x => Num.add x value)
  else if String.eqb operation "multiply" then
    assign_amount obj (fun x => Num.mul x value)
  else if String.eqb operation "reduce_percent" then
    assign_amount obj (fun x => Num.mul x (Num.sub Num.one value))
  else if String.eqb operation "add_percent" then
    assign_amount obj (fun x => Num.mul x (Num.add Num.one value))
  else ret tt.

(** *** events.py, the method *)

(** [ev.apply(month, finance_manager)] for the event at position [i]. *)
Definition Event_apply (i : nat) (month : Z) : M unit :=
  o <- item FinanceManager.events i ;;
  match o with
  | Some ev =>
      if (month =? Event.trigger_month ev) && negb (Event.executed ev) then
        observe_call i ;;;
        call_action (Event.action ev) ;;;
        update (fun s => Set_.events
          (alter (Event.set_executed true) i (FinanceManager.events s)) s)
      else ret tt
  | None => ret tt
  end.

(** *** Month step *)

(** 1) Events *)
Definition events_phase : M unit :=
  n <- gets (fun s => length (FinanceManager.events s)) ;;
  for_range n 0 (fun i _ =>
    month <- gets FinanceManager.month ;;
    Event_apply i month) tt.

Definition add_cash (amt : num) : M unit :=
  update (fun s => Set_.cash (Num.add (FinanceManager.cash s) amt) s).

Definition sub_cash (amt : num) : M unit :=
  update (fun s => Set_.cash (Num.sub (FinanceManager.cash s) amt) s).

(** 2) Incomes & Expenses due this month *)
Definition incomes_phase : M num :=
  n <- gets (fun s => length (FinanceManager.incomes s)) ;;
  for_range n 0 (fun i income_this_month =>
    o <- item FinanceManager.incomes i ;;
    match o with
    | Some inc =>
        due <- _is_due inc ;;
        if due then
          let amt := Income.receive inc in
          add_cash amt ;;;
          ret (Num.add income_this_month amt)
        else ret income_this_month
    | None => ret income_this_month
    end) Num.zero.

Definition expenses_phase : M num :=
  n <- gets (fun s => length (FinanceManager.expenses s)) ;;
  for_range n 0 (fun i expense_this_month =>
    o <- item FinanceManager.expenses i ;;
    match o with
    | Some exp =>
        due <- _is_due exp ;;
        if due then
          let amt := Expense.charge exp in
          sub_cash amt ;;;
          ret (Num.add expense_this_month amt)
        else ret expense_this_month
    | None => ret expense_this_month
    end) Num.zero.

Definition update_investment (i : nat) (f : Investment.t -> Investment.t)
    : M unit :=
  update (fun s =>
    Set_.investments (alter f i (FinanceManager.investments s)) s).

(** 3) Dividends (monthly equivalent) *)
Definition dividends_phase : M num :=
  n <- gets (fun s => length (FinanceManager.investments s)) ;;
  for_range n 0 (fun i dividends_received =>
    o <- item FinanceManager.investments i ;;
    match o with
    | Some inv =>
        if Investment.is_active inv then
          monthly_div <- divide (Investment.dividend inv) twelve ;;
          reinvest <- gets FinanceManager.reinvest_dividends ;;
          (if reinvest
           then update_investment i (Investment.add_funds monthly_div)
           else add_cash monthly_div) ;;;
          ret (Num.add dividends_received monthly_div)
        else ret dividends_received
    | None => ret dividends_received
    end) Num.zero.

(** 4) Investment revaluation (stochastic volatility event) *)
Definition revaluation_phase : M unit :=
  n <- gets (fun s => length (FinanceManager.investments s)) ;;
  for_range n 0 (fun i _ =>
    o <- item FinanceManager.investments i ;;
    match o with
    | Some inv =>
        inv' <- draw (Investment.revaluation inv) ;;
        update_investment i (fun _ => inv')
    | None => ret tt
    end) tt.

(** 5) Apply yearly expected growth at year-end boundaries *)
Definition yearly_phase : M unit :=
  month <- gets FinanceManager.month ;;
  if (month + 1) mod 12 =? 0 then
    n <- gets (fun s => length (FinanceManager.investments s)) ;;
    for_range n 0 (fun i _ =>
      update_investment i Investment.yearly_increase) tt
  else ret tt.

(** The body of the sweep's loop, for one entry [name, weight] of the
    allocation: the first active investment with the name, if there is
    one, receives its part of [sweep_amount]. *)
Definition sweep_entry (sweep_amount total_alloc : num)
    (entry : string * num) (invested_from_sweep : num) : M num :=
  let name := fst entry in
  let weight := snd entry in
  target <- get_investment name ;;
  match target with
  | None => ret invested_from_sweep
  | Some i =>
      share <- divide weight total_alloc ;;
      let add_amt := Num.mul sweep_amount share in
      update_investment i (Investment.add_funds add_amt) ;;;
      ret (Num.add invested_from_sweep add_amt)
  end.

(** 6) Auto-invest a sweep of available cash (optional).  The result
    is [invested_from_sweep]. *)
Definition sweep_phase : M num :=
  rate <- gets FinanceManager.invest_sweep_rate ;;
  allocation <- gets FinanceManager.allocation ;;
  if Num.gtb rate Num.zero && negb (bool_decide (allocation = [])) then
    cash <- gets FinanceManager.cash ;;
    let sweep_amount := Num.max Num.zero (Num.mul cash rate) in
    if Num.gtb sweep_amount Num.zero then
      let total_alloc := Num.sum (snd <$> allocation) in
      if Num.leb total_alloc Num.zero
      then raise (ValueError "Allocation must have positive weights.")
      else
        invested_from_sweep <-
          for_each allocation (sweep_entry sweep_amount total_alloc)
            Num.zero ;;
        sub_cash invested_from_sweep ;;;
        ret invested_from_sweep
    else ret Num.zero
  else ret Num.zero.

Definition step_month : M Snapshot.t :=
  events_phase ;;;
  income_this_month <- incomes_phase ;;
  expense_this_month <- expenses_phase ;;
  dividends_received <- dividends_phase ;;
  revaluation_phase ;;;
  yearly_phase ;;;
  invested_from_sweep <- sweep_phase ;;
  (* 7) Apply increments (after this month's charge/receive) *)
  _apply_increments_if_cycle_end ;;;
  (* 8) Collect snapshot & advance time *)
  total_investments_value <- total_investments ;;
  month <- gets FinanceManager.month ;;
  cash <- gets FinanceManager.cash ;;
  statuses <- _targets_status ;;
  let snapshot :=
    Snapshot.mk month (Num.round2 cash) (Num.round2 income_this_month)
      (Num.round2 expense_this_month) (Num.round2 dividends_received)
      (Num.round2 invested_from_sweep) (Num.round2 total_investments_value)
      statuses in
  update (fun s => Set_.history (FinanceManager.history s ++ [snapshot]) s) ;;;
  update (fun s => Set_.month (FinanceManager.month s + 1) s) ;;;
  ret snapshot.

(** [range(months)] is empty for a negative [months]. *)
Definition run (months : Z) : M (list Snapshot.t) :=
  for_range (Z.to_nat months) 0 (fun _ results =>
    snapshot <- step_month ;;
    ret (results ++ [snapshot])) [].

(** *** The constructor *)

Section Constructor.

(** The sample sequence the generator delivers after
    [np.random.seed(s)]. *)
Variable sequence_of_seed : Z -> nat -> Q.

Definition __init__ (start_month : Z) (starting_cash : num)
    (reinvest_dividends : bool) (invest_sweep_rate : num)
    (allocation : option (list (string * num)))
    (random_seed : option Z) : M unit :=
  fun w =>
    let fm :=
      FinanceManager.mk start_month (Py (Num.val starting_cash))
        [] [] [] [] [] reinvest_dividends invest_sweep_rate
        (default [] allocation) [] in
    let generator :=
      match random_seed with
      | Some s => NpRandom.seed (sequence_of_seed s)
      | None => np_random w
      end in
    (Returned tt, mkWorld generator fm (calls w)).

End Constructor.

(** ** Vocabulary of the statements *)

(** How often the action of the event at position [i] has been called. *)
Definition invocations (i : nat) (w : World) : nat :=
  count_occ Nat.eq_dec (calls w) i.

(** The caller overwrites the engine's [month] between two steps. *)
Definition rewind (m : Z) (w : World) : World :=
  mkWorld (np_random w) (Set_.month m (self w)) (calls w).

(** [later w w']: [w'] is reached from [w] by calls of [step_month],
    failed or not, between which the caller may set [month] to any
    value. *)
Inductive later : World -> World -> Prop :=
| later_now w : later w w
| later_step w w' : later w w' -> later w (snd (step_month w'))
| later_rewind w w' m : later w w' -> later w (rewind m w').

(** The state after [n] calls of [step_month] that all return. *)
Fixpoint steps (n : nat) (w : World) : option World :=
  match n with
  | O => Some w
  | S n' =>
      match step_month w with
      | (Returned _, w') => steps n' w'
      | (Raised _, _) => None
      end
  end.

(** The months [start], [start + 1], ..., [start + n - 1]. *)
Fixpoint months_from (start : Z) (n : nat) : list Z :=
  match n with
  | O => []
  | S n' => start :: months_from (start + 1) n'
  end.

(** [obs] is the same before and after [m], whatever [m] returns. *)
Definition keeps {X A} (obs : World -> X) (m : M A) : Prop :=
  forall w, obs (snd (m w)) = obs w.

(** What no phase of a step after the events touches. *)
Definition frame (w : World)
    : Z * list Snapshot.t * list Event.t * list nat :=
  (FinanceManager.month (self w), FinanceManager.history (self w),
   FinanceManager.events (self w), calls w).

(** What no phase of a step before the snapshot touches. *)
Definition clock (w : World) : Z * list Snapshot.t :=
  (FinanceManager.month (self w), FinanceManager.history (self w)).

(** Two interpreter states that differ at most in the observation
    [calls]. *)
Definition alike (w1 w2 : World) : Prop :=
  np_random w1 = np_random w2 /\ self w1 = self w2.

(** [m] does not read [calls]. *)
Definition blind {A} (m : M A) : Prop :=
  forall w1 w2, alike w1 w2 ->
    fst (m w1) = fst (m w2) /\ alike (snd (m w1)) (snd (m w2)).

(** The calls that configure an engine after its construction. *)
Inductive Setup : Type :=
| AddIncome (i : Income.t)
| AddExpense (e : Expense.t)
| AddInvestment (v : Investment.t)
| AddEvent (ev : Event.t)
| AddTarget (t : Target.t).

Definition configure (c : Setup) : M unit :=
  match c with
  | AddIncome i => add_income i
  | AddExpense e => add_expense e
  | AddInvestment v => add_investment v
  | AddEvent ev => add_event ev
  | AddTarget t => add_target t
  end.

(** A configuration with a fixed seed: the constructor's arguments and
    the entities added. *)
Record Config : Type := mkConfig {
  start_month : Z;
  starting_cash : num;
  reinvest_dividends : bool;
  invest_sweep_rate : num;
  allocation : option (list (string * num));
  random_seed : Z;
  entities : list Setup
}.

(** One run: construct the engine, configure it, run it. *)
Definition simulate (sequence_of_seed : Z -> nat -> Q) (cfg : Config)
    (months : Z) : M (list Snapshot.t) :=
  __init__ sequence_of_seed (start_month cfg) (starting_cash cfg)
    (reinvest_dividends cfg) (invest_sweep_rate cfg) (allocation cfg)
    (Some (random_seed cfg)) ;;;
  for_each (entities cfg) (fun c _ => configure c) tt ;;;
  run months.

(** The [cash] and [investments_total] columns of a run. *)
Definition trajectory (r : outcome (list Snapshot.t))
    : outcome (list (num * num)) :=
  match r with
  | Returned snaps =>
      Returned ((fun s => (Snapshot.cash s, Snapshot.investments_total s))
                  <$> snaps)
  | Raised e => Raised e
  end.

(** The four operations an action knows. *)
Definition known_operation (operation : string) : bool :=
  String.eqb operation "add" || String.eqb operation "multiply"
  || String.eqb operation "reduce_percent"
  || String.eqb operation "add_percent".

(** The two directions of a shock. *)
Definition directions : list num := [Num.of_Z 1; Num.of_Z (-1)].

(** The amount the sweep adds for one entry of the allocation. *)
Definition sweep_share (sweep_amount total_alloc weight : num) : num :=
  Num.mul sweep_amount (Num.lift2 Num.fdiv weight total_alloc).

(** The first active investment with a name, as the sweep looks it up. *)
Definition sweep_target (name : string) (invs : list Investment.t)
    : option nat :=
  first_index
    (fun v => String.eqb (Investment.name v) name && Investment.is_active v)
    invs.

(** The amounts the sweep hands out, in the order of the allocation:
    one for each name that has a target. *)
Definition distributed (sweep_amount total_alloc : num)
    (allocation : list (string * num)) (invs : list Investment.t)
    : list num :=
  omap (fun entry =>
          match sweep_target (fst entry) invs with
          | Some _ => Some (sweep_share sweep_amount total_alloc (snd entry))
          | None => None
          end) allocation.

(** The engine with other investments and another cash balance. *)
Definition swept (invs : list Investment.t) (cash : num) (w : World)
    : World :=
  mkWorld (np_random w) (Set_.cash cash (Set_.investments invs (self w)))
    (calls w).

(** The condition under which [Event.apply] calls the action. *)
Definition triggered (month : Z) (ev : Event.t) : bool :=
  (month =? Event.trigger_month ev) && negb (Event.executed ev).

(** What a call does to the event [ev] found at position [i] before
    it: nothing; or its action was called and it is marked as executed; or
    its action was called and it is still pending. *)
Definition untouched (i : nat) (ev : Event.t) (w w' : World) : Prop :=
  FinanceManager.events (self w') !! i = Some ev
  /\ invocations i w' = invocations i w.

Definition fired_now (i : nat) (ev : Event.t) (w w' : World) : Prop :=
  FinanceManager.events (self w') !! i = Some (Event.set_executed true ev)
  /\ invocations i w' = S (invocations i w).

Definition tried (i : nat) (ev : Event.t) (w w' : World) : Prop :=
  FinanceManager.events (self w') !! i = Some ev
  /\ invocations i w' = S (invocations i w).

(** The events and the record of the calls of their actions. *)
Definition audit (w : World) : list Event.t * list nat :=
  (FinanceManager.events (self w), calls w).

(** The revaluations of a list of investments, one after the other,
    each continuing with the generator the one before left. *)
Fixpoint revalue_all (invs : list Investment.t) (st : NpRandom.RandomState)
    : list Investment.t * NpRandom.RandomState :=
  match invs with
  | [] => ([], st)
  | v :: rest =>
      let (v', st1) := Investment.revaluation v st in
      let (rest', st2) := revalue_all rest st1 in
      (v' :: rest', st2)
  end.

(** The number of samples a revaluation consumes: none for an
    inactive investment, one for the test against the volatility, and two
    more, direction and size, if the test decides for a shock. *)
Definition draws (v : Investment.t) (st : NpRandom.RandomState) : nat :=
  if Investment.active v then
    if Num.gtb (Investment.volatility v) (fst (NpRandom.rand st))
    then 3 else 1
  else 0.

(** The value a call returned, if it returned. *)
Definition returned {A} (r : outcome A) : option A :=
  match r with Returned a => Some a | Raised _ => None end.


(** ** Engines used as examples *)

(** A generator all of whose samples are [0]. *)
Definition zeros : NpRandom.RandomState := NpRandom.mk (fun _ => 0%Q) 0.

(** [FinanceManager(starting_cash=100, invest_sweep_rate=0.5,
    allocation={"A": 0.0})] *)
Definition weightless_sweep : World :=
  mkWorld zeros
    (FinanceManager.mk 0 (Num.of_Z 100) [] [] [] [] [] true (Num.dec 1 2)
       [("A", Num.zero)] [])
    [].

(** [FinanceManager()] after
    [add_income(Income("Salary", 20000, 1))]. *)
Definition salaried : World :=
  mkWorld zeros
    (FinanceManager.mk 0 Num.zero
       [Income.init "Salary" (Num.of_Z 20000) 1 false Num.zero]
       [] [] [] [] true Num.zero [] [])
    [].

(** [Event("Raise", 0, action)] for an action that adds 500 to the
    income ["Salary"], and [salaried] after [add_event] of it. *)
Definition raise_event : Event.t :=
  Event.init "Raise" 0
    (make_event_action "Income" "Salary" "add" (Num.of_Z 500)).

Definition promoted : World :=
  mkWorld zeros
    (FinanceManager.mk 0 Num.zero
       [Income.init "Salary" (Num.of_Z 20000) 1 false Num.zero]
       [] [] [raise_event] [] true Num.zero [] [])
    [].

(** [salaried] after [add_event(Event("Raise", 0, action))] for an
    action on the income ["Bonus"], which does not exist. *)
Definition mistyped : World :=
  mkWorld zeros
    (FinanceManager.mk 0 Num.zero
       [Income.init "Salary" (Num.of_Z 20000) 1 false Num.zero]
       [] []
       [Event.init "Raise" 0
          (make_event_action "Income" "Bonus" "add" (Num.of_Z 500))]
       [] true Num.zero [] [])
    [].

(** [Investment("Stocks", 30000, 0.2, 1.0, 0.0)]: a shock every
    month. *)
Definition stocks : Investment.t :=
  Investment.init "Stocks" (Num.of_Z 30000) (Num.dec 2 10) (Num.of_Z 1)
    Num.zero.

(** [Investment("Margin", -100, 0.0, 1.0, 0.0)]: an overdrawn
    balance. *)
Definition margin : Investment.t :=
  Investment.init "Margin" (Num.of_Z (-100)) Num.zero (Num.of_Z 1) Num.zero.

(** [Target("Goal", lambda f: f.total_investments(), 0.0)] *)
Definition goal_zero : Target.t :=
  Target.init "Goal" Target.total_investments Num.zero.

(** An engine with one investment and the target [goal_zero]. *)
Definition invested (v : Investment.t) : World :=
  mkWorld zeros
    (FinanceManager.mk 0 Num.zero [] [] [v] [] [goal_zero] true Num.zero
       [] [])
    [].

(** [Investment(name, amount, 0.0, 0.0, 0.0)], active or deleted. *)
Definition fund (name : string) (amount : Z) (active : bool)
    : Investment.t :=
  Investment.mk name (Num.of_Z amount) (Num.of_Z amount) Num.zero Num.zero
    Num.zero active.

(** An engine with cash 2000, a sweep rate of one half, hence a sweep
    amount of 1000, the allocation [{"A": 0.6, "B": 0.4}] and the
    investments [A] and [B], the latter active or not. *)
Definition two_funds (b_active : bool) : World :=
  mkWorld zeros
    (FinanceManager.mk 0 (Num.of_Z 2000) [] []
       [fund "A" 1000 true; fund "B" 500 b_active] [] [] true (Num.dec 1 2)
       [("A", Num.dec 6 10); ("B", Num.dec 4 10)] [])
    [].


(** ** The helpers of the application *)

(** [add_income_to_fm] and its four siblings build the object and
    hand it to the adder.  ([add_target_to_fm] also prints a line, which
    is not modelled.) *)
Definition add_income_to_fm (name : string) (amount : num) (frequency : Z)
    (inc : bool) (increment_rate : num) : M unit :=
  add_income (Income.init name amount frequency inc increment_rate).

Definition add_expense_to_fm (name : string) (amount : num) (frequency : Z)
    (inc : bool) (increment_rate : num) : M unit :=
  add_expense (Expense.init name amount frequency inc increment_rate).

Definition add_investment_to_fm (name : string) (starting_amount
    yearly_return_rate volatility dividend_per : num) : M unit :=
  add_investment
    (Investment.init name starting_amount yearly_return_rate volatility
       dividend_per).

Definition add_target_to_fm (name : string) (eval_func : Target.Metric)
    (target_value : num) : M unit :=
  add_target (Target.init name eval_func target_value).

Definition add_event_to_fm (name : string) (trigger_month : Z)
    (action : Event.Action) : M unit :=
  add_event (Event.init name trigger_month action).

(** ** Vocabulary of the further statements *)

(** [I] holds after [m] whenever it holds before, whether [m] returns
    or raises. *)
Definition preserves {A} (I : World -> Prop) (m : M A) : Prop :=
  forall w, I w -> I (snd (m w)).

(** From a state in which [I] holds, [m] returns, and [I] holds
    again. *)
Definition safe {A} (I : World -> Prop) (m : M A) : Prop :=
  forall w, I w -> I (snd (m w)) /\ exists a, fst (m w) = Returned a.

(** Everything about the engine that is configuration: its entities
    without their amounts, the events without their marks, the targets
    and the three settings. *)
Definition structure (w : World)
    : list Income.t * list Expense.t * list Investment.t * list Event.t
      * list Target.t * bool * num * list (string * num) :=
  (Income.set_amount Num.zero <$> FinanceManager.incomes (self w),
   Expense.set_amount Num.zero <$> FinanceManager.expenses (self w),
   Investment.set_amount Num.zero <$> FinanceManager.investments (self w),
   Event.set_executed false <$> FinanceManager.events (self w),
   FinanceManager.targets (self w),
   FinanceManager.reinvest_dividends (self w),
   FinanceManager.invest_sweep_rate (self w),
   FinanceManager.allocation (self w)).

(** Every income and expense has a recurrence of at least one
    month. *)
Definition well_formed (w : World) : Prop :=
  Forall (fun i => 1 <= Income.recurrence i)
    (FinanceManager.incomes (self w))
  /\ Forall (fun e => 1 <= Expense.recurrence e)
       (FinanceManager.expenses (self w)).

(** [after w w']: [w'] is reached from [w] by calls of [step_month],
    failed or not, and nothing else. *)
Inductive after : World -> World -> Prop :=
| after_now w : after w w
| after_step w w' : after w w' -> after w (snd (step_month w')).

(** The construction of an engine and the calls that configure it,
    without the run. *)
Definition construct (sequence_of_seed : Z -> nat -> Q) (cfg : Config)
    : M unit :=
  __init__ sequence_of_seed (start_month cfg) (starting_cash cfg)
    (reinvest_dividends cfg) (invest_sweep_rate cfg) (allocation cfg)
    (Some (random_seed cfg)) ;;;
  for_each (entities cfg) (fun c _ => configure c) tt.

(** The sweep cannot raise: it is disabled, or the weights of the
    allocation have a total that is not [<= 0]. *)
Definition sweep_sound (w : World) : Prop :=
  Num.gtb (FinanceManager.invest_sweep_rate (self w)) Num.zero
  && negb (bool_decide (FinanceManager.allocation (self w) = [])) = false
  \/ Num.leb (Num.sum (snd <$> FinanceManager.allocation (self w))) Num.zero
     = false.

(** An engine in which nothing is left that could raise: recurrences
    of at least one, no pending event, no target with goal zero, a sound
    sweep. *)
Definition calm (w : World) : Prop :=
  well_formed w
  /\ Forall (fun ev => Event.executed ev = true)
       (FinanceManager.events (self w))
  /\ Forall (fun t => Num.is_zero (Target.goal_value t) = false)
       (FinanceManager.targets (self w))
  /\ sweep_sound w.

(** The object found at a position of one of the three collections
    of entities that can be inactive. *)
Definition income_at (i : nat) (x : Income.t) (w : World) : Prop :=
  FinanceManager.incomes (self w) !! i = Some x.

Definition expense_at (i : nat) (x : Expense.t) (w : World) : Prop :=
  FinanceManager.expenses (self w) !! i = Some x.

Definition investment_at (i : nat) (x : Investment.t) (w : World) : Prop :=
  FinanceManager.investments (self w) !! i = Some x.

(** [Target("Nest egg", lambda f: f.total_investments(), 1000)], and
    the engine [two_funds] with a deleted investment [B] after
    [add_target] of it. *)
Definition nest_egg : Target.t :=
  Target.init "Nest egg" Target.total_investments (Num.of_Z 1000).

Definition saving : World :=
  mkWorld zeros
    (FinanceManager.mk 0 (Num.of_Z 2000) [] []
       [fund "A" 1000 true; fund "B" 500 false] [] [nest_egg] true
       (Num.dec 1 2) [("A", Num.dec 6 10); ("B", Num.dec 4 10)] [])
    [].

(** No investment can have a shock: every volatility is [<= 0], and
    the generator's samples, which lie in [[0, 1)], are not negative. *)
Definition quiet (w : World) : Prop :=
  Forall (fun v => Num.leb (Investment.volatility v) Num.zero = true)
    (FinanceManager.investments (self w))
  /\ forall n, (0 <= NpRandom.samples (np_random w) n)%Q.

(** [m] neither reads nor writes anything but the engine. *)
Definition engine_only {A} (m : M A) : Prop :=
  forall w1 w2, self w1 = self w2 ->
    fst (m w1) = fst (m w2) /\ self (snd (m w1)) = self (snd (m w2)).

(** From two quiet states with the same engine, [m] does the same to
    the engine and has the same outcome, whatever the generators are. *)
Definition unseeded {A} (m : M A) : Prop :=
  forall w1 w2, quiet w1 -> quiet w2 -> self w1 = self w2 ->
    fst (m w1) = fst (m w2)
    /\ self (snd (m w1)) = self (snd (m w2))
    /\ quiet (snd (m w1)) /\ quiet (snd (m w2)).

(** [two_funds], whose investments have no volatility, with a
    generator that delivers one half throughout. *)
Definition halves : NpRandom.RandomState := NpRandom.mk (fun _ => 1 # 2) 0.

Definition two_funds_halves : World :=
  mkWorld halves (self (two_funds true)) [].

(** * Properties *)

(** ** The monad *)

Lemma bind_returned {A B} (m : M A) (f : A -> M B) w a w' :
  m w = (Returned a, w') -> bind m f w = f a w'.
Proof. intros E. unfold bind. now rewrite E. Qed.

(** A sequence returns only if its first part does. *)
Lemma bind_inv {A B} (m : M A) (f : A -> M B) w b w' :
  bind m f w = (Returned b, w') ->
  exists a w1, m w = (Returned a, w1) /\ f a w1 = (Returned b, w').
Proof.
  unfold bind. destruct (m w) as [[a|e] w1]; intros E.
  - eauto.
  - discriminate.
Qed.

(** ** Frames *)

Section Keeps.
Context {X : Type} (obs : World -> X).

Lemma keeps_ret {A} (a : A) : keeps obs (ret a).
Proof. now intros w. Qed.

Lemma keeps_raise {A} e : keeps obs (@raise A e).
Proof. now intros w. Qed.

Lemma keeps_gets {A} (f : FinanceManager.t -> A) : keeps obs (gets f).
Proof. now intros w. Qed.

Lemma keeps_bind {A B} (m : M A) (f : A -> M B) :
  keeps obs m -> (forall a, keeps obs (f a)) -> keeps obs (bind m f).
Proof.
  intros Hm Hf w. unfold bind. specialize (Hm w).
  destruct (m w) as [[a|e] w1]; simpl in *.
  - now rewrite Hf.
  - exact Hm.
Qed.

Lemma keeps_for_range {A} n start (body : nat -> A -> M A) acc :
  (forall i a, keeps obs (body i a)) ->
  keeps obs (for_range n start body acc).
Proof.
  intros Hb. revert start acc.
  induction n as [|n IH]; intros start acc; simpl.
  - apply keeps_ret.
  - apply keeps_bind; auto.
Qed.

Lemma keeps_for_each {Y A} (xs : list Y) (body : Y -> A -> M A) acc :
  (forall x a, keeps obs (body x a)) ->
  keeps obs (for_each xs body acc).
Proof.
  intros Hb. revert acc.
  induction xs as [|x xs IH]; intros acc; simpl.
  - apply keeps_ret.
  - apply keeps_bind; auto.
Qed.

Lemma keeps_update f :
  (forall w, obs (mkWorld (np_random w) (f (self w)) (calls w)) = obs w) ->
  keeps obs (update f).
Proof. intros H w. apply H. Qed.

Lemma keeps_draw {A} (f : NpRandom.RandomState -> A * NpRandom.RandomState) :
  (forall w st, obs (mkWorld st (self w) (calls w)) = obs w) ->
  keeps obs (draw f).
Proof.
  intros H w. unfold draw. destruct (f (np_random w)). apply H.
Qed.

Lemma keeps_observe_call i :
  (forall w, obs (mkWorld (np_random w) (self w) (i :: calls w)) = obs w) ->
  keeps obs (observe_call i).
Proof. intros H w. apply H. Qed.

Lemma keeps_divide x y : keeps obs (divide x y).
Proof.
  unfold divide. destruct (Num.div x y); [apply keeps_ret|apply keeps_raise].
Qed.

Lemma keeps_from_option {A} (o : option A) e : keeps obs (from_option o e).
Proof. destruct o; [apply keeps_ret|apply keeps_raise]. Qed.

End Keeps.

Create HintDb keeps.

(** Walks through a method built from the monad's operations; the
    methods already dealt with are in the hint database. *)
Ltac keeps_walk :=
  repeat first
    [ apply keeps_ret | apply keeps_raise | apply keeps_gets
    | apply keeps_divide | apply keeps_from_option
    | solve [auto with keeps]
    | apply keeps_bind; [|intros]
    | apply keeps_for_range; intros
    | apply keeps_for_each; intros
    | apply keeps_update; intros; reflexivity
    | apply keeps_draw; intros; reflexivity
    | apply keeps_observe_call; intros; reflexivity
    | match goal with
      | |- keeps _ (match ?x with _ => _ end) => destruct x
      | |- keeps _ (let (_, _) := ?x in _) => destruct x
      end ].

Lemma keeps_is_due {X T} `{Recurring T} (obs : World -> X) (o : T) :
  keeps obs (_is_due o).
Proof. unfold _is_due. keeps_walk. Qed.

Lemma keeps_get_object {X} (obs : World -> X) ty name :
  keeps obs (get_object ty name).
Proof. unfold get_object. keeps_walk. Qed.

Lemma keeps_item {X T} (obs : World -> X)
    (coll : FinanceManager.t -> list T) i :
  keeps obs (item coll i).
Proof. apply keeps_gets. Qed.

Lemma keeps_sum_of {X Y} (obs : World -> X) (xs : list Y) keep f :
  (forall x, keeps obs (f x)) -> keeps obs (sum_of xs keep f).
Proof. intros Hf. unfold sum_of. keeps_walk. Qed.

#[local] Hint Resolve keeps_is_due keeps_get_object keeps_item : keeps.

Lemma keeps_total_dividends {X} (obs : World -> X) :
  keeps obs total_dividends_monthly_equivalent.
Proof.
  unfold total_dividends_monthly_equivalent. keeps_walk.
Qed.

Lemma keeps_total_investments {X} (obs : World -> X) :
  keeps obs total_investments.
Proof.
  unfold total_investments. keeps_walk.
Qed.

#[local] Hint Resolve keeps_total_dividends keeps_total_investments : keeps.

Lemma keeps_call_metric {X} (obs : World -> X) f : keeps obs (call_metric f).
Proof.
  destruct f; simpl; auto with keeps.
  - unfold total_monthly_income_equivalent. keeps_walk.
  - unfold total_monthly_expense_equivalent. keeps_walk.
Qed.

#[local] Hint Resolve keeps_call_metric : keeps.

Lemma keeps_targets_status {X} (obs : World -> X) : keeps obs _targets_status.
Proof.
  unfold _targets_status, Target_is_reached, Target_status. keeps_walk.
Qed.

(** The body of an action changes amounts only. *)
Lemma call_action_frame a : keeps frame (call_action a).
Proof. unfold call_action, assign_amount. keeps_walk. Qed.

Lemma incomes_phase_frame : keeps frame incomes_phase.
Proof. unfold incomes_phase, add_cash. keeps_walk. Qed.

Lemma expenses_phase_frame : keeps frame expenses_phase.
Proof. unfold expenses_phase, sub_cash. keeps_walk. Qed.

Lemma dividends_phase_frame : keeps frame dividends_phase.
Proof. unfold dividends_phase, update_investment, add_cash. keeps_walk. Qed.

Lemma revaluation_phase_frame : keeps frame revaluation_phase.
Proof. unfold revaluation_phase, update_investment. keeps_walk. Qed.

Lemma yearly_phase_frame : keeps frame yearly_phase.
Proof. unfold yearly_phase, update_investment. keeps_walk. Qed.

Lemma sweep_phase_frame : keeps frame sweep_phase.
Proof.
  unfold sweep_phase, sweep_entry, get_investment, update_investment,
    sub_cash.
  keeps_walk.
Qed.

Lemma increments_frame : keeps frame _apply_increments_if_cycle_end.
Proof. unfold _apply_increments_if_cycle_end. keeps_walk. Qed.

#[local] Hint Resolve call_action_frame incomes_phase_frame
  expenses_phase_frame dividends_phase_frame revaluation_phase_frame
  yearly_phase_frame sweep_phase_frame increments_frame
  keeps_targets_status : keeps.

(** What [frame] keeps, [clock] keeps. *)
Lemma frame_clock {A} (m : M A) : keeps frame m -> keeps clock m.
Proof.
  intros H w. specialize (H w). unfold frame, clock in *. congruence.
Qed.

#[local] Hint Resolve frame_clock : keeps.

Lemma Event_apply_clock i month : keeps clock (Event_apply i month).
Proof. unfold Event_apply. keeps_walk. Qed.

#[local] Hint Resolve Event_apply_clock : keeps.

Lemma events_phase_clock : keeps clock events_phase.
Proof. unfold events_phase. keeps_walk. Qed.

#[local] Hint Resolve events_phase_clock : keeps.

(** ** The clock of a step *)

(** Splits a returning sequence at its first call and records that the
    call kept [obs]. *)
Ltac split_bind obs H :=
  let E := fresh "E" in
  apply bind_inv in H; destruct H as (? & ? & E & H);
  match type of E with
  | ?m ?w = (_, ?w1) =>
      let K := fresh "K" in
      assert (obs w1 = obs w) as K by
        (let Q := fresh in
         assert (keeps obs m) as Q
           by first [solve [auto with keeps] | keeps_walk];
         specialize (Q w); rewrite E in Q; exact Q)
  end.

(** A step that returns has recorded its snapshot under the month it
    started in, and advanced the month by one. *)
Lemma step_month_returned w s w' :
  step_month w = (Returned s, w') ->
  Snapshot.month s = FinanceManager.month (self w)
  /\ FinanceManager.month (self w') = FinanceManager.month (self w) + 1
  /\ FinanceManager.history (self w') = FinanceManager.history (self w) ++ [s].
Proof.
  unfold step_month. intros H.
  do 12 split_bind clock H.
  match goal with
  | E1 : gets FinanceManager.month _ = _ |- _ =>
      inversion E1; subst; clear E1
  end.
  simpl in H. inversion H; subst; clear H. simpl.
  match goal with
  | F : _targets_status _ = (_, ?v) |- _ =>
      assert (clock v = clock w) as Kw by congruence
  end.
  match goal with
  | F : total_investments _ = (_, ?v) |- _ =>
      assert (clock v = clock w) as Kv by congruence
  end.
  unfold clock in Kw, Kv.
  inversion Kw as [[Km Kh]]. inversion Kv as [[Km' Kh']].
  rewrite Km, Kh, Km'. auto.
Qed.

Lemma months_from_length start n : length (months_from start n) = n.
Proof. revert start. induction n; intros; simpl; auto. Qed.

(** The loop of [run], from any value of [results]. *)
Lemma run_loop n : forall start results w,
  match for_range n start
          (fun _ results =>
             snapshot <- step_month ;; ret (results ++ [snapshot]))
          results w with
  | (Returned snaps, w') =>
      exists new,
        snaps = results ++ new
        /\ length new = n
        /\ Snapshot.month <$> new
           = months_from (FinanceManager.month (self w)) n
        /\ FinanceManager.month (self w')
           = FinanceManager.month (self w) + Z.of_nat n
        /\ FinanceManager.history (self w')
           = FinanceManager.history (self w) ++ new
        /\ steps n w = Some w'
  | (Raised e, w') =>
      exists k wk,
        (k < n)%nat /\ steps k w = Some wk
        /\ step_month wk = (Raised e, w')
  end.
Proof.
  induction n as [|n IH]; intros start results w.
  - simpl. exists []. rewrite !app_nil_r. repeat split; auto. lia.
  - cbn [for_range]. unfold bind at 1. unfold bind at 1.
    destruct (step_month w) as [[s|e] w1] eqn:Es.
    + cbn [ret]. specialize (IH (S start) (results ++ [s]) w1).
      destruct (step_month_returned _ _ _ Es) as (Hm & Hm' & Hh).
      destruct (for_range n (S start) _ (results ++ [s]) w1)
        as [[snaps|e] w'].
      * destruct IH as (new & -> & Hl & Hms & Hmo & Hhi & Hst).
        exists (s :: new). cbn [steps months_from]. rewrite Es.
        split; [now rewrite <- app_assoc|].
        split; [simpl; lia|].
        split; [now rewrite fmap_cons, Hms, Hm, Hm'|].
        split; [lia|].
        split; [now rewrite Hhi, Hh, <- app_assoc|].
        exact Hst.
      * destruct IH as (k & wk & Hk & Hst & Hr).
        exists (S k), wk. cbn [steps]. rewrite Es. repeat split; auto. lia.
    + exists 0%nat, w. simpl. repeat split; auto. lia.
Qed.

Lemma steps_raised k : forall n w wk e w',
  steps k w = Some wk -> step_month wk = (Raised e, w') -> (k < n)%nat ->
  steps n w = None.
Proof.
  induction k as [|k IH]; intros n w wk e w' Hk Hr Hlt; simpl in Hk.
  - inversion Hk; subst. destruct n; [lia|]. simpl. now rewrite Hr.
  - destruct n; [lia|]. simpl.
    destruct (step_month w) as [[s|e0] w1]; [|discriminate].
    apply (IH n w1 wk e w'); auto. lia.
Qed.

(** C1, as amended: [run(n)] is [n] calls of [step_month] in sequence.
    If they all return, [run] returns their [n] snapshots, whose months
    are [start_month, ..., start_month + n - 1], whatever the targets'
    statuses are, and the history has grown by these snapshots; if one of
    them raises, [run] raises that exception at the first such step and
    returns nothing. *)
Theorem run_is_n_steps (n : nat) (w : World) :
  match run (Z.of_nat n) w with
  | (Returned snaps, w') =>
      steps n w = Some w'
      /\ length snaps = n
      /\ Snapshot.month <$> snaps
         = months_from (FinanceManager.month (self w)) n
      /\ FinanceManager.month (self w')
         = FinanceManager.month (self w) + Z.of_nat n
      /\ FinanceManager.history (self w')
         = FinanceManager.history (self w) ++ snaps
  | (Raised e, w') =>
      steps n w = None
      /\ exists k wk,
           (k < n)%nat /\ steps k w = Some wk
           /\ step_month wk = (Raised e, w')
  end.
Proof.
  unfold run. rewrite Nat2Z.id.
  pose proof (run_loop n 0%nat [] w) as H.
  destruct (for_range n 0 _ [] w) as [[snaps|e] w'].
  - destruct H as (new & -> & Hl & Hms & Hmo & Hhi & Hst). simpl. auto.
  - destruct H as (k & wk & Hk & Hst & Hr). split.
    + eapply steps_raised; eauto.
    + eauto.
Qed.

(** C1 as stated fails: on an engine whose sweep is enabled with
    weights of total zero, [run(1)] raises and returns no snapshot. *)
Lemma run_raises_counterexample :
  run 1 weightless_sweep
    = (Raised (ValueError "Allocation must have positive weights."),
       weightless_sweep)
  /\ ~ (exists snaps w',
          run 1 weightless_sweep = (Returned snaps, w')
          /\ length snaps = 1%nat).
Proof.
  assert (run 1 weightless_sweep
          = (Raised (ValueError "Allocation must have positive weights."),
             weightless_sweep)) as E by (vm_compute; reflexivity).
  split; [exact E|]. intros (snaps & w' & H & _). rewrite E in H. discriminate.
Qed.

(** A disabled sweep does nothing. *)
Lemma sweep_phase_disabled w :
  Num.gtb (FinanceManager.invest_sweep_rate (self w)) Num.zero
  && negb (bool_decide (FinanceManager.allocation (self w) = [])) = false ->
  sweep_phase w = (Returned Num.zero, w).
Proof.
  intros H. unfold sweep_phase, bind, gets. now rewrite H.
Qed.

(** C2: from month 0 with cash 15000, one active income of 20000 and
    one active expense of 6000, both monthly, no investment, event or
    target and the sweep disabled, one step returns a snapshot with income
    20000, expense 6000 and cash 29000. *)
Theorem step_month_example
    (g : NpRandom.RandomState) (seen : list nat)
    (income_name expense_name : string) (income_inc expense_inc : bool)
    (income_rate expense_rate : num) (reinvest : bool) (rate : num)
    (alloc : list (string * num)) (hist : list Snapshot.t) :
  Num.gtb rate Num.zero && negb (bool_decide (alloc = [])) = false ->
  exists s w',
    step_month
      (mkWorld g
         (FinanceManager.mk 0 (Num.of_Z 15000)
            [Income.init income_name (Num.of_Z 20000) 1 income_inc income_rate]
            [Expense.init expense_name (Num.of_Z 6000) 1 expense_inc
               expense_rate]
            [] [] [] reinvest rate alloc hist)
         seen)
    = (Returned s, w')
    /\ Snapshot.income s = Num.of_Z 20000
    /\ Snapshot.expense s = Num.of_Z 6000
    /\ Snapshot.cash s = Num.of_Z 29000.
Proof.
  intros Hsweep. unfold step_month.
  erewrite bind_returned by (lazy; reflexivity).
  erewrite bind_returned by (lazy; reflexivity).
  erewrite bind_returned by (lazy; reflexivity).
  erewrite bind_returned by (lazy; reflexivity).
  erewrite bind_returned by (lazy; reflexivity).
  erewrite bind_returned by (lazy; reflexivity).
  erewrite bind_returned by (apply sweep_phase_disabled; exact Hsweep).
  destruct income_inc, expense_inc;
    (do 2 eexists; split; [lazy; reflexivity|]);
    repeat split; reflexivity.
Qed.

Lemma step_month_example_witness :
  Num.gtb Num.zero Num.zero && negb (bool_decide (@nil (string * num) = []))
  = false
  /\ exists s w',
       step_month
         (mkWorld zeros
            (FinanceManager.mk 0 (Num.of_Z 15000)
               [Income.init "Salary" (Num.of_Z 20000) 1 false Num.zero]
               [Expense.init "Rent" (Num.of_Z 6000) 1 false Num.zero]
               [] [] [] true Num.zero [] [])
            [])
       = (Returned s, w')
       /\ Snapshot.income s = Num.of_Z 20000
       /\ Snapshot.expense s = Num.of_Z 6000
       /\ Snapshot.cash s = Num.of_Z 29000.
Proof.
  split; [reflexivity|].
  apply (step_month_example zeros [] "Salary" "Rent" false false Num.zero
           Num.zero true Num.zero [] []).
  reflexivity.
Defined.

(** ** Event actions *)

Lemma known_operation_false op :
  known_operation op = false ->
  String.eqb op "add" = false /\ String.eqb op "multiply" = false
  /\ String.eqb op "reduce_percent" = false
  /\ String.eqb op "add_percent" = false.
Proof.
  unfold known_operation. intros H.
  repeat (apply orb_false_elim in H; destruct H as [H ?]). auto.
Qed.

(** C10: an action whose operation is none of [add], [multiply],
    [reduce_percent], [add_percent], called on an engine in which its
    object is found, returns without raising and changes nothing. *)
Theorem unknown_operation_changes_nothing
    (a : Event.Action) (w : World) (obj : Ref) :
  known_operation (Event.operation a) = false ->
  fst (get_object (Event.obj_type a) (Event.obj_name a) w)
    = Returned (Some obj) ->
  call_action a w = (Returned tt, w).
Proof.
  intros Hop Hobj. apply known_operation_false in Hop.
  destruct Hop as (H1 & H2 & H3 & H4).
  unfold call_action, bind. revert Hobj. unfold get_object.
  destruct (mapping (lower (Event.obj_type a))) as [k|]; simpl.
  - intros _. now rewrite H1, H2, H3, H4.
  - discriminate.
Qed.

Lemma unknown_operation_changes_nothing_witness :
  known_operation "set" = false
  /\ call_action (make_event_action "Income" "Salary" "set" (Num.of_Z 5))
       salaried
     = (Returned tt, salaried).
Proof.
  split; [reflexivity|].
  apply (unknown_operation_changes_nothing
           (make_event_action "Income" "Salary" "set" (Num.of_Z 5))
           salaried (IncomeAt 0)); reflexivity.
Defined.

(** C6, as amended: take an action built for a recognised type, and
    an engine with no object of that type with that name that is active
    (or, for events and targets, that exists), so that the lookup returns
    [None].  With one of the four operations the action raises: reading
    the [amount] of [None] is an [AttributeError].  With any other
    operation it returns, the missing object unnoticed.  In both cases
    nothing is changed. *)
Theorem missing_object_raises (a : Event.Action) (w : World) (k : Kind) :
  mapping (lower (Event.obj_type a)) = Some k ->
  lookup k (Event.obj_name a) (self w) = None ->
  call_action a w
  = if known_operation (Event.operation a)
    then (Raised AttributeError, w)
    else (Returned tt, w).
Proof.
  intros Hk Hnone. unfold call_action, bind, get_object.
  rewrite Hk. simpl. rewrite Hnone. unfold known_operation.
  destruct (String.eqb (Event.operation a) "add"); [reflexivity|].
  destruct (String.eqb (Event.operation a) "multiply"); [reflexivity|].
  destruct (String.eqb (Event.operation a) "reduce_percent"); [reflexivity|].
  destruct (String.eqb (Event.operation a) "add_percent"); reflexivity.
Qed.

Lemma missing_object_raises_witness :
  lookup income "Bonus" (self salaried) = None
  /\ call_action (make_event_action "Income" "Bonus" "add" (Num.of_Z 5))
       salaried
     = (Raised AttributeError, salaried).
Proof.
  split; [reflexivity|].
  exact (missing_object_raises
           (make_event_action "Income" "Bonus" "add" (Num.of_Z 5))
           salaried income eq_refl eq_refl).
Defined.

(** C6 as stated fails: with an operation the action does not know,
    the missing object goes unnoticed and the call returns. *)
Lemma missing_object_silent_counterexample :
  lookup income "Bonus" (self salaried) = None
  /\ call_action (make_event_action "income" "Bonus" "set" (Num.of_Z 5))
       salaried
     = (Returned tt, salaried)
  /\ ~ (exists e w',
          call_action (make_event_action "income" "Bonus" "set" (Num.of_Z 5))
            salaried
          = (Raised e, w')).
Proof.
  split; [reflexivity|]. split; [reflexivity|].
  intros (e & w' & H). discriminate.
Qed.

(** ** Deleting *)

(** The branch of [delete_object] for incomes, expenses and
    investments: the assignment to [is_active] raises. *)
Lemma delete_object_flow ty name k i w :
  mapping (lower ty) = Some k -> has_is_active k = true ->
  position k name (self w) = Some i ->
  delete_object ty name w = (Raised AttributeError, w).
Proof.
  intros Hk Hf Hp. unfold delete_object, bind, gets. rewrite Hk, Hp, Hf.
  reflexivity.
Qed.

(** The branch for events and targets: the object is popped. *)
Lemma delete_object_popped ty name k i w :
  mapping (lower ty) = Some k -> has_is_active k = false ->
  position k name (self w) = Some i ->
  delete_object ty name w
  = (Returned true, mkWorld (np_random w) (pop k i (self w)) (calls w)).
Proof.
  intros Hk Hf Hp. unfold delete_object, bind, gets. rewrite Hk, Hp, Hf.
  reflexivity.
Qed.

(** No object with the name: [False], nothing changed. *)
Lemma delete_object_not_found ty name k w :
  mapping (lower ty) = Some k ->
  position k name (self w) = None ->
  delete_object ty name w = (Returned false, w).
Proof.
  intros Hk Hp. unfold delete_object, bind, gets. rewrite Hk, Hp.
  reflexivity.
Qed.

(** C5, the failing case: deleting an income that exists raises
    [AttributeError]; the income is still in its collection and still
    active, and no value is returned. *)
Theorem delete_object_income_raises :
  delete_object "income" "Salary" salaried = (Raised AttributeError, salaried)
  /\ Income.is_active <$> FinanceManager.incomes (self salaried) = [true].
Proof. split; reflexivity. Qed.

(** ** Arithmetic *)

Lemma Qltb_lt a b : Num.Qltb a b = true <-> (a < b)%Q.
Proof.
  unfold Num.Qltb. rewrite negb_true_iff, <- not_true_iff_false, Qle_bool_iff.
  split; [apply Qnot_le_lt | apply Qlt_not_le].
Qed.

Lemma Qltb_ge a b : Num.Qltb a b = false <-> (b <= a)%Q.
Proof.
  unfold Num.Qltb. rewrite negb_false_iff. apply Qle_bool_iff.
Qed.

(** Multiplying by a positive rational keeps the sign. *)
Lemma Qcompare_mult_pos x f :
  (0 < f)%Q -> (Qred (x * f) ?= 0)%Q = (x ?= 0)%Q.
Proof.
  intros Hf. change 0%Q with (Qred 0) at 1. rewrite <- Qred_compare.
  destruct (Qcompare_spec x 0) as [E|L|G].
  - apply Qeq_alt. rewrite E. ring.
  - apply Qlt_alt. apply Qlt_le_trans with (0 * f)%Q.
    + now apply Qmult_lt_compat_r.
    + rewrite Qmult_0_l. apply Qle_refl.
  - apply Qgt_alt. apply Qle_lt_trans with (0 * f)%Q.
    + rewrite Qmult_0_l. apply Qle_refl.
    + now apply Qmult_lt_compat_r.
Qed.

Lemma fmul_pos_sign a f :
  (0 < f)%Q -> Num.fsign (Num.fmul a (Finite f)) = Num.fsign a.
Proof.
  intros Hf.
  assert (Qeq_bool f 0 = false) as Hz.
  { apply not_true_iff_false. rewrite Qeq_bool_iff. lra. }
  assert (Num.Qltb 0 f = true) as Hp by now apply Qltb_lt.
  destruct a as [x| | |]; simpl; unfold Num.scale_inf;
    rewrite ?Hz, ?Hp; simpl; auto.
  now rewrite Qcompare_mult_pos.
Qed.

Lemma mul_pos_sign x y f :
  Num.val y = Finite f -> (0 < f)%Q -> Num.sign (Num.mul x y) = Num.sign x.
Proof.
  intros Hy Hf. unfold Num.sign, Num.mul, Num.lift2. rewrite Hy.
  destruct (Num.is_np x || Num.is_np y); simpl; now apply fmul_pos_sign.
Qed.

(** [x >= 0], from the sign of [x]. *)
Lemma geb_zero_sign x :
  Num.geb x Num.zero
  = match Num.sign x with Some Gt | Some Eq => true | _ => false end.
Proof.
  unfold Num.geb, Num.fle, Num.sign.
  destruct (Num.val x) as [q| | |]; simpl; auto.
  change (inject_Z 0) with 0%Q.
  destruct (Qcompare_spec q 0) as [E|L|G].
  - rewrite (Qeq_eq_bool 0 q) by (now symmetry). apply orb_true_r.
  - assert (Num.Qltb 0 q = false) as -> by (apply Qltb_ge; lra).
    simpl. apply not_true_iff_false. rewrite Qeq_bool_iff. lra.
  - assert (Num.Qltb 0 q = true) as -> by now apply Qltb_lt.
    reflexivity.
Qed.

(** A positive value is not zero. *)
Lemma gtb_zero_not_zero x :
  Num.gtb x Num.zero = true -> Num.is_zero x = false.
Proof.
  unfold Num.gtb, Num.is_zero. destruct (Num.val x) as [q| | |]; simpl; auto.
  change (inject_Z 0) with 0%Q.
  intros H. apply Qltb_lt in H. apply not_true_iff_false.
  rewrite Qeq_bool_iff. lra.
Qed.

(** ** Revaluation *)

Lemma pick_in a p : forall acc u last,
  NpRandom.pick a p acc u last = last \/ In (NpRandom.pick a p acc u last) a.
Proof.
  revert p. induction a as [|x a IH]; intros p acc u last; simpl; auto.
  destruct p as [|w p]; auto.
  destruct (Num.Qltb u (Qred (acc + w))); auto.
  destruct (IH p (Qred (acc + w)) u x) as [-> | H]; auto.
Qed.

Lemma pick_nonempty x a w p acc u last :
  In (NpRandom.pick (x :: a) (w :: p) acc u last) (x :: a).
Proof.
  cbn [NpRandom.pick]. destruct (Num.Qltb u _); [now left|].
  destruct (pick_in a p (Qred (acc + w)) u x) as [-> | H];
    [now left | now right].
Qed.

(** The jump size drawn is one of the five. *)
Lemma choice_rate st :
  exists rate,
    In rate Investment.rates
    /\ fst (NpRandom.choice Investment.rates Investment.rate_weights st)
       = Np (Finite rate).
Proof.
  unfold NpRandom.choice. destruct (NpRandom.next st) as [u st'].
  eexists. split; [|reflexivity]. apply pick_nonempty.
Qed.

(** The factor of every outcome of the draws is positive. *)
Lemma shock_factor dir rate :
  In dir directions -> In rate Investment.rates ->
  exists f, Num.abs (Num.add dir (Np (Finite rate))) = Np (Finite f)
            /\ (0 < f)%Q.
Proof.
  unfold directions, Investment.rates. simpl.
  intros [<- | [<- | []]] [<- | [<- | [<- | [<- | [<- | []]]]]];
    (eexists; split; [vm_compute; reflexivity | reflexivity]).
Qed.

(** C8: every outcome of the draws of a shock, a direction [+1] or
    [-1] and one of the five jump sizes, multiplies the balance by the
    positive factor [|direction + size|]; a revaluation of an active
    investment either leaves it as it is or applies such a shock, so it
    keeps the sign of the balance, and a non-negative balance stays
    non-negative. *)
Theorem revaluation_keeps_sign
    (inv : Investment.t) (st : NpRandom.RandomState) :
  Investment.active inv = true ->
  (forall dir rate,
     In dir directions -> In rate Investment.rates ->
     let factor := Num.abs (Num.add dir (Np (Finite rate))) in
     let inv' := Investment.shock dir (Np (Finite rate)) inv in
     Num.gtb factor Num.zero = true
     /\ Investment.amount inv' = Num.mul (Investment.amount inv) factor
     /\ Num.sign (Investment.amount inv') = Num.sign (Investment.amount inv))
  /\ (let inv' := fst (Investment.revaluation inv st) in
      (inv' = inv
       \/ exists dir rate,
            In dir directions /\ In rate Investment.rates
            /\ inv' = Investment.shock dir (Np (Finite rate)) inv)
      /\ Num.sign (Investment.amount inv') = Num.sign (Investment.amount inv)
      /\ (Num.geb (Investment.amount inv) Num.zero = true ->
          Num.geb (Investment.amount inv') Num.zero = true)).
Proof.
  intros Hact.
  assert (forall dir rate,
     In dir directions -> In rate Investment.rates ->
     let factor := Num.abs (Num.add dir (Np (Finite rate))) in
     let inv' := Investment.shock dir (Np (Finite rate)) inv in
     Num.gtb factor Num.zero = true
     /\ Investment.amount inv' = Num.mul (Investment.amount inv) factor
     /\ Num.sign (Investment.amount inv') = Num.sign (Investment.amount inv))
    as Hshock.
  { intros dir rate Hd Hr factor inv'.
    destruct (shock_factor dir rate Hd Hr) as (f & Ef & Hf).
    subst factor inv'. rewrite Ef. split; [|split].
    - unfold Num.gtb. simpl. change (inject_Z 0) with 0%Q. now apply Qltb_lt.
    - unfold Investment.shock. simpl. now rewrite Ef.
    - unfold Investment.shock. simpl. rewrite Ef.
      now apply (mul_pos_sign _ _ f). }
  split; [exact Hshock|].
  assert (let inv' := fst (Investment.revaluation inv st) in
          inv' = inv
          \/ exists dir rate,
               In dir directions /\ In rate Investment.rates
               /\ inv' = Investment.shock dir (Np (Finite rate)) inv)
    as Hcases.
  { unfold Investment.revaluation. rewrite Hact.
    destruct (NpRandom.rand st) as [u st1].
    destruct (Num.gtb (Investment.volatility inv) u); [|now left].
    destruct (NpRandom.rand st1) as [v st2].
    destruct (choice_rate st2) as (rate & Hr & Er).
    destruct (NpRandom.choice Investment.rates Investment.rate_weights st2)
      as [r st3]. simpl in Er. subst r. right.
    exists (if Num.gtb v (Num.dec 5 10) then Num.of_Z 1 else Num.of_Z (-1)),
      rate.
    split; [|split; [exact Hr|reflexivity]].
    unfold directions. destruct (Num.gtb v (Num.dec 5 10)); simpl; auto. }
  simpl in Hcases |- *.
  assert (Num.sign (Investment.amount (fst (Investment.revaluation inv st)))
          = Num.sign (Investment.amount inv)) as Hsign.
  { destruct Hcases as [-> | (dir & rate & Hd & Hr & ->)]; [reflexivity|].
    apply (Hshock dir rate Hd Hr). }
  split; [exact Hcases|]. split; [exact Hsign|].
  rewrite !geb_zero_sign, Hsign. auto.
Qed.

Lemma revaluation_keeps_sign_witness :
  Investment.active stocks = true
  /\ Investment.amount (fst (Investment.revaluation stocks zeros))
     = Np (Finite 28500)
  /\ Num.sign (Investment.amount (fst (Investment.revaluation stocks zeros)))
     = Num.sign (Investment.amount stocks).
Proof.
  split; [reflexivity|]. split; [reflexivity|].
  destruct (revaluation_keeps_sign stocks zeros eq_refl) as [_ [_ [H _]]].
  exact H.
Defined.

(** ** Targets *)

(** The progress computed from a quotient by zero that NumPy returned. *)
Lemma progress_over_zero current goal :
  Num.is_zero goal = true ->
  Num.is_np current || Num.is_np goal = true ->
  Num.min hundred (Num.mul (Num.lift2 Num.fdiv current goal) hundred)
  = if Num.ltb current Num.zero then Np NegInf else hundred.
Proof.
  unfold Num.is_zero, Num.min, Num.mul, Num.ltb, Num.lift2.
  intros Hz Hnp. rewrite Hnp. simpl.
  destruct (Num.val goal) as [q| | |]; simpl in Hz; try discriminate.
  change (inject_Z 0) with 0%Q in *.
  apply Qeq_bool_eq in Hz.
  assert (Num.Qltb q 0 = false) as Hq by (apply Qltb_ge; lra).
  destruct (Num.val current) as [x| | |]; simpl; rewrite ?Hz, ?Hq; auto.
  rewrite (Qeq_eq_bool q 0 Hz).
  destruct (Qcompare_spec x 0) as [E|L|G].
  - rewrite (Qeq_eq_bool x 0 E).
    assert (Num.Qltb x 0 = false) as -> by (apply Qltb_ge; lra).
    reflexivity.
  - assert (Qeq_bool x 0 = false) as ->.
    { apply not_true_iff_false. rewrite Qeq_bool_iff. lra. }
    assert (Num.Qltb 0 x = false) as -> by (apply Qltb_ge; lra).
    assert (Num.Qltb x 0 = true) as -> by now apply Qltb_lt.
    reflexivity.
  - assert (Qeq_bool x 0 = false) as ->.
    { apply not_true_iff_false. rewrite Qeq_bool_iff. lra. }
    assert (Num.Qltb 0 x = true) as -> by now apply Qltb_lt.
    assert (Num.Qltb x 0 = false) as -> by (apply Qltb_ge; lra).
    reflexivity.
Qed.




(** ** The sweep *)

Lemma first_index_Some {T} (p : T -> bool) l i :
  first_index p l = Some i -> exists x, l !! i = Some x /\ p x = true.
Proof.
  revert i. induction l as [|x l IH]; intros i; simpl; [discriminate|].
  destruct (p x) eqn:Hp.
  - intros [= <-]. eauto.
  - destruct (first_index p l) as [j|]; simpl; [|discriminate].
    intros [= <-]. apply IH. reflexivity.
Qed.

(** Changing an element in a way [p] does not see does not move the
    first match. *)
Lemma first_index_alter {T} (p : T -> bool) (f : T -> T) i l :
  (forall x, p (f x) = p x) ->
  first_index p (alter f i l) = first_index p l.
Proof.
  intros Hf. revert i. induction l as [|x l IH]; intros i; [reflexivity|].
  destruct i as [|i]; simpl.
  - now rewrite Hf.
  - specialize (IH i). unfold alter in IH. now rewrite IH.
Qed.

Lemma add_funds_same_target name add_amt i invs :
  sweep_target name (alter (Investment.add_funds add_amt) i invs)
  = sweep_target name invs.
Proof.
  apply first_index_alter. intros v. unfold Investment.add_funds.
  now destruct (Investment.active v).
Qed.

Lemma sweep_target_Some name invs i :
  sweep_target name invs = Some i ->
  exists v, invs !! i = Some v /\ Investment.name v = name
            /\ Investment.active v = true.
Proof.
  intros H. apply first_index_Some in H. destruct H as (v & Hv & Hp).
  apply andb_true_iff in Hp. destruct Hp as [Hn Ha].
  apply String.eqb_eq in Hn. eauto.
Qed.

Lemma divide_nonzero x y w :
  Num.is_zero y = false ->
  divide x y w = (Returned (Num.lift2 Num.fdiv x y), w).
Proof.
  intros H. unfold divide, Num.div. now rewrite H, andb_false_r.
Qed.

Lemma gtb_zero_not_leb x :
  Num.gtb x Num.zero = true -> Num.leb x Num.zero = false.
Proof.
  unfold Num.gtb, Num.leb, Num.fle. destruct (Num.val x) as [q| | |]; simpl;
    try discriminate; auto.
  change (inject_Z 0) with 0%Q. intros H. apply Qltb_lt in H.
  apply orb_false_iff. split.
  - apply Qltb_ge. lra.
  - apply not_true_iff_false. rewrite Qeq_bool_iff. lra.
Qed.

Lemma distributed_cons sweep_amount total_alloc name weight rest invs :
  distributed sweep_amount total_alloc ((name, weight) :: rest) invs
  = match sweep_target name invs with
    | Some _ =>
        sweep_share sweep_amount total_alloc weight
        :: distributed sweep_amount total_alloc rest invs
    | None => distributed sweep_amount total_alloc rest invs
    end.
Proof.
  unfold distributed. cbn [omap list_omap fst snd].
  now destruct (sweep_target name invs).
Qed.

Lemma distributed_same_targets sweep_amount total_alloc allocation l1 l2 :
  (forall name, sweep_target name l1 = sweep_target name l2) ->
  distributed sweep_amount total_alloc allocation l1
  = distributed sweep_amount total_alloc allocation l2.
Proof.
  intros H. unfold distributed.
  induction allocation as [|e rest IH]; [reflexivity|].
  destruct e as [name weight]. fold (distributed sweep_amount total_alloc).
  fold (distributed sweep_amount total_alloc ((name, weight) :: rest) l1).
  fold (distributed sweep_amount total_alloc ((name, weight) :: rest) l2).
  rewrite !distributed_cons, H.
  unfold distributed. now rewrite IH.
Qed.

(** One entry of the allocation: its share goes to its target, if it
    has one. *)
Lemma sweep_entry_run sweep_amount total_alloc name weight acc w :
  Num.is_zero total_alloc = false ->
  sweep_entry sweep_amount total_alloc (name, weight) acc w
  = match sweep_target name (FinanceManager.investments (self w)) with
    | Some i =>
        let add_amt := sweep_share sweep_amount total_alloc weight in
        (Returned (Num.add acc add_amt),
         mkWorld (np_random w)
           (Set_.investments
              (alter (Investment.add_funds add_amt) i
                 (FinanceManager.investments (self w)))
              (self w))
           (calls w))
    | None => (Returned acc, w)
    end.
Proof.
  intros Hz. unfold sweep_entry, sweep_target, get_investment, bind, gets.
  simpl. destruct (first_index _ _); [|reflexivity].
  now rewrite divide_nonzero.
Qed.

(** The loop of the sweep over the allocation. *)
Lemma sweep_loop sweep_amount total_alloc :
  Num.is_zero total_alloc = false ->
  forall allocation w acc,
    NoDup (fst <$> allocation) ->
    let invs := FinanceManager.investments (self w) in
    exists invs',
      for_each allocation (sweep_entry sweep_amount total_alloc) acc w
      = (Returned
           (fold_left Num.add
              (distributed sweep_amount total_alloc allocation invs) acc),
         mkWorld (np_random w) (Set_.investments invs' (self w)) (calls w))
      /\ (forall name, sweep_target name invs' = sweep_target name invs)
      /\ (forall name weight i,
            In (name, weight) allocation ->
            sweep_target name invs = Some i ->
            exists v,
              invs !! i = Some v
              /\ invs' !! i
                 = Some (Investment.set_amount
                           (Num.add (Investment.amount v)
                              (sweep_share sweep_amount total_alloc weight))
                           v))
      /\ (forall i,
            (forall name weight,
               In (name, weight) allocation ->
               sweep_target name invs <> Some i) ->
            invs' !! i = invs !! i).
Proof.
  intros Hz allocation.
  induction allocation as [|[n wt] rest IH]; intros w acc Hnd invs.
  - exists invs. simpl. split; [|split; [|split]]; auto.
    + unfold ret. f_equal. destruct w as [g s c]. now destruct s.
    + intros ? ? ? [].
  - rewrite fmap_cons in Hnd. apply NoDup_cons in Hnd.
    destruct Hnd as [Hfresh Hnd]. simpl in Hfresh.
    cbn [for_each]. rewrite distributed_cons.
    unfold bind at 1. rewrite (sweep_entry_run _ _ _ _ _ _ Hz).
    fold invs. destruct (sweep_target n invs) as [i0|] eqn:Ht.
    + (* the name has a target *)
      destruct (sweep_target_Some _ _ _ Ht) as (v0 & Hv0 & Hn0 & Ha0).
      cbv zeta.
      set (invs1 := alter (Investment.add_funds
                             (sweep_share sweep_amount total_alloc wt))
                      i0 invs).
      set (w1 := mkWorld (np_random w) (Set_.investments invs1 (self w))
                   (calls w)).
      destruct (IH w1 (Num.add acc (sweep_share sweep_amount total_alloc wt))
                  Hnd) as (invs' & Hrun & Hkeys & Hget & Hrest).
      assert (forall name, sweep_target name invs1 = sweep_target name invs)
        as Hsame by (intros; apply add_funds_same_target).
      assert (forall name weight,
                In (name, weight) rest -> sweep_target name invs <> Some i0)
        as Hother.
      { intros name weight Hin Hti.
        destruct (sweep_target_Some _ _ _ Hti) as (v & Hv & Hn & _).
        rewrite Hv0 in Hv. inversion Hv; subst v; clear Hv.
        apply Hfresh. rewrite <- Hn0, Hn.
        apply list_elem_of_In. apply (in_map fst _ _ Hin). }
      exists invs'. split; [|split; [|split]].
      * rewrite Hrun. cbn [fold_left]. subst w1. simpl.
        now rewrite (distributed_same_targets _ _ _ invs1 invs Hsame).
      * intros name. rewrite Hkeys. subst w1. simpl. apply Hsame.
      * intros name weight i [E | Hin] Hti.
        -- inversion E; subst name weight; clear E.
           rewrite Ht in Hti. inversion Hti; subst i; clear Hti.
           exists v0. split; [exact Hv0|].
           rewrite Hrest.
           ++ subst w1 invs1. simpl. rewrite list_lookup_alter_eq, Hv0. simpl.
              unfold Investment.add_funds. now rewrite Ha0.
           ++ intros name weight Hin Hti. subst w1. simpl in Hti.
              rewrite Hsame in Hti. now apply (Hother name weight).
        -- assert (i <> i0) as Hne.
           { intros ->. now apply (Hother name weight). }
           destruct (Hget name weight i Hin) as (v & Hv & Hv').
           { subst w1. simpl. now rewrite Hsame. }
           exists v. split; [|exact Hv'].
           subst w1 invs1. simpl in Hv.
           now rewrite list_lookup_alter_ne in Hv by auto.
      * intros i Hfree. rewrite Hrest.
        -- subst w1 invs1. simpl. apply list_lookup_alter_ne.
           intros ->. apply (Hfree n wt); [now left|exact Ht].
        -- intros name weight Hin Hti. subst w1. simpl in Hti.
           rewrite Hsame in Hti.
           apply (Hfree name weight); [now right|exact Hti].
    + (* no active investment has the name *)
      destruct (IH w acc Hnd) as (invs' & Hrun & Hkeys & Hget & Hrest).
      exists invs'. split; [exact Hrun|]. split; [exact Hkeys|].
      split.
      * intros name weight i [E | Hin] Hti.
        -- inversion E; subst. congruence.
        -- eauto.
      * intros i Hfree. apply Hrest. intros name weight Hin.
        apply (Hfree name weight). now right.
Qed.

(** Runs a read of an attribute of the engine. *)
Ltac run_gets :=
  match goal with
  | |- context [bind (gets ?f) ?k ?w] =>
      rewrite (bind_returned (gets f) k w (f (self w)) w eq_refl)
  end.



(** The allocation [{A: 0.6, B: 0.4}] with a sweep amount of 1000: [A]
    receives 600, [B] receives 400 and cash falls by 1000. *)
Example sweep_both_active :
  sweep_phase (two_funds true)
  = (Returned (Num.of_Z 1000),
     swept [Investment.set_amount (Num.of_Z 1600) (fund "A" 1000 true);
            Investment.set_amount (Num.of_Z 900) (fund "B" 500 true)]
       (Num.of_Z 1000) (two_funds true)).
Proof. vm_compute. reflexivity. Qed.

(** With [B] inactive, [B] receives nothing and cash falls by 600. *)
Example sweep_one_inactive :
  sweep_phase (two_funds false)
  = (Returned (Num.of_Z 600),
     swept [Investment.set_amount (Num.of_Z 1600) (fund "A" 1000 true);
            fund "B" 500 false]
       (Num.of_Z 1400) (two_funds false)).
Proof. vm_compute. reflexivity. Qed.

(** ** Events *)

Lemma frame_audit {A} (m : M A) : keeps frame m -> keeps audit m.
Proof.
  intros H w. specialize (H w). unfold frame, audit in *. congruence.
Qed.

#[local] Hint Resolve frame_audit : keeps.

(** [Event.apply], run. *)
Lemma Event_apply_run j month w :
  Event_apply j month w
  = match FinanceManager.events (self w) !! j with
    | Some ev =>
        if triggered month ev then
          match call_action (Event.action ev)
                  (mkWorld (np_random w) (self w) (j :: calls w)) with
          | (Returned _, w1) =>
              (Returned tt,
               mkWorld (np_random w1)
                 (Set_.events
                    (alter (Event.set_executed true) j
                       (FinanceManager.events (self w1)))
                    (self w1))
                 (calls w1))
          | (Raised e, w1) => (Raised e, w1)
          end
        else (Returned tt, w)
    | None => (Returned tt, w)
    end.
Proof.
  unfold Event_apply, item, bind, gets, triggered, observe_call, update.
  destruct (FinanceManager.events (self w) !! j) as [ev|]; [|reflexivity].
  destruct ((month =? Event.trigger_month ev) && negb (Event.executed ev));
    [|reflexivity].
  now destruct (call_action _ _) as [[[]|e] w1].
Qed.

Lemma invocations_cons_eq i w g s :
  invocations i (mkWorld g s (i :: calls w)) = S (invocations i w).
Proof. unfold invocations. simpl. now destruct (Nat.eq_dec i i). Qed.

Lemma invocations_cons_ne i j w g s :
  i <> j -> invocations i (mkWorld g s (j :: calls w)) = invocations i w.
Proof.
  intros H. unfold invocations. simpl.
  destruct (Nat.eq_dec j i); [congruence|reflexivity].
Qed.

(** What [Event.apply] at position [j] does to the event at position
    [i]. *)
Lemma Event_apply_effect j month w i ev :
  FinanceManager.events (self w) !! i = Some ev ->
  let r := fst (Event_apply j month w) in
  let w' := snd (Event_apply j month w) in
  FinanceManager.month (self w') = FinanceManager.month (self w)
  /\ (i <> j -> untouched i ev w w')
  /\ (i = j -> triggered month ev = false ->
      untouched i ev w w' /\ r = Returned tt)
  /\ (i = j -> triggered month ev = true ->
      match r with
      | Returned _ => fired_now i ev w w'
      | Raised _ => tried i ev w w'
      end).
Proof.
  intros Hev. rewrite Event_apply_run.
  destruct (FinanceManager.events (self w) !! j) as [evj|] eqn:Hj.
  2:{ simpl. unfold untouched. split; [reflexivity|]. split; [auto|].
      split; intros ->; congruence. }
  destruct (triggered month evj) eqn:Ht.
  2:{ simpl. unfold untouched. split; [reflexivity|]. split; [auto|].
      split; intros ->; rewrite Hev in Hj; inversion Hj; subst;
        [auto | congruence]. }
  pose proof (call_action_frame (Event.action evj)
                (mkWorld (np_random w) (self w) (j :: calls w))) as Hf.
  destruct (call_action _ _) as [[[]|e] w1]; simpl in *;
    unfold frame in Hf; simpl in Hf; injection Hf as Hm Hh He Hc.
  - split; [exact Hm|]. unfold untouched, fired_now. simpl. rewrite He.
    split; [|split].
    + intros Hne. rewrite list_lookup_alter_ne by auto. split; [exact Hev|].
      destruct w1 as [g1 s1 c1]. simpl in Hc. subst c1.
      now apply invocations_cons_ne.
    + intros ->. rewrite Hev in Hj. inversion Hj; subst. congruence.
    + intros -> _. rewrite list_lookup_alter_eq, Hev. split; [reflexivity|].
      destruct w1 as [g1 s1 c1]. simpl in Hc. subst c1.
      apply invocations_cons_eq.
  - split; [exact Hm|]. unfold untouched, tried. rewrite He.
    destruct w1 as [g1 s1 c1]. simpl in Hc. subst c1.
    split; [|split].
    + intros Hne. split; [exact Hev|]. now apply invocations_cons_ne.
    + intros ->. rewrite Hev in Hj. inversion Hj; subst. congruence.
    + intros -> _. split; [exact Hev|]. apply invocations_cons_eq.
Qed.

Lemma untouched_then {P : nat -> Event.t -> World -> World -> Prop}
    i ev w w1 w' :
  (P = untouched \/ P = fired_now \/ P = tried) ->
  untouched i ev w w1 -> P i ev w1 w' -> P i ev w w'.
Proof.
  intros [-> | [-> | ->]] [_ Hc] [He Hc']; split; auto; congruence.
Qed.

Lemma fired_then_untouched i ev w w1 w' :
  fired_now i ev w w1 -> untouched i (Event.set_executed true ev) w1 w' ->
  fired_now i ev w w'.
Proof. intros [_ Hc] [He Hc']. split; auto; congruence. Qed.

Lemma events_loop_step n start w :
  for_range (S n) start
    (fun i _ => month <- gets FinanceManager.month ;; Event_apply i month)
    tt w
  = match Event_apply start (FinanceManager.month (self w)) w with
    | (Returned _, w1) =>
        for_range n (S start)
          (fun i _ =>
             month <- gets FinanceManager.month ;; Event_apply i month)
          tt w1
    | (Raised e, w1) => (Raised e, w1)
    end.
Proof.
  cbn [for_range]. unfold bind at 1. unfold bind at 1. unfold gets at 1.
  now destruct (Event_apply _ _ _) as [[[]|e] w1].
Qed.

(** The loop over the events, from position [start] on. *)
Lemma events_loop n : forall start w i ev,
  FinanceManager.events (self w) !! i = Some ev ->
  let run :=
    for_range n start
      (fun i _ => month <- gets FinanceManager.month ;; Event_apply i month)
      tt w in
  let m := FinanceManager.month (self w) in
  FinanceManager.month (self (snd run)) = m
  /\ ((i < start \/ start + n <= i)%nat -> untouched i ev w (snd run))
  /\ (triggered m ev = false -> untouched i ev w (snd run))
  /\ ((start <= i < start + n)%nat -> triggered m ev = true ->
      match fst run with
      | Returned _ => fired_now i ev w (snd run)
      | Raised _ =>
          fired_now i ev w (snd run) \/ tried i ev w (snd run)
          \/ untouched i ev w (snd run)
      end).
Proof.
  induction n as [|n IH]; intros start w i ev Hev; cbn zeta.
  - simpl. unfold untouched. split; [reflexivity|]. split; [auto|].
    split; [auto|]. intros ?. lia.
  - rewrite events_loop_step.
    destruct (Event_apply_effect start (FinanceManager.month (self w)) w i ev
                Hev) as (Hm & Hne & Hidle & Hfire).
    destruct (Event_apply start (FinanceManager.month (self w)) w)
      as [[[]|e] w1]; simpl in Hm, Hne, Hidle, Hfire.
    + (* the call returned: the loop goes on from [w1] *)
      destruct (decide (i = start)) as [->|Hi].
      * destruct (triggered (FinanceManager.month (self w)) ev) eqn:Ht.
        -- specialize (Hfire eq_refl eq_refl).
           destruct (IH (S start) w1 start (Event.set_executed true ev)
                       (proj1 Hfire)) as (Hm' & Hout & _ & _).
           cbn zeta in Hm', Hout. specialize (Hout ltac:(lia)).
           split; [congruence|]. split; [lia|]. split; [discriminate|].
           intros _ _.
           pose proof (fired_then_untouched _ _ _ _ _ Hfire Hout) as F.
           destruct (fst _); auto.
        -- destruct (Hidle eq_refl eq_refl) as [Hu _].
           destruct (IH (S start) w1 start ev (proj1 Hu))
             as (Hm' & Hout & _ & _).
           cbn zeta in Hm', Hout. specialize (Hout ltac:(lia)).
           split; [congruence|]. split; [lia|].
           split; [|discriminate].
           intros _. apply (untouched_then (P:=untouched) _ _ _ w1); auto.
      * specialize (Hne Hi).
        destruct (IH (S start) w1 i ev (proj1 Hne))
          as (Hm' & Hout & Hidle' & Hfire').
        cbn zeta in Hm', Hout, Hidle', Hfire'. rewrite Hm in Hidle', Hfire'.
        split; [congruence|]. split; [|split].
        -- intros Hr. apply (untouched_then (P:=untouched) _ _ _ w1); auto.
           apply Hout. lia.
        -- intros Ht. apply (untouched_then (P:=untouched) _ _ _ w1); auto.
        -- intros Hr Ht. specialize (Hfire' ltac:(lia) Ht).
           destruct (fst _).
           ++ apply (untouched_then (P:=fired_now) _ _ _ w1); auto.
           ++ destruct Hfire' as [F | [F | F]].
              ** left. apply (untouched_then (P:=fired_now) _ _ _ w1); auto.
              ** right. left.
                 apply (untouched_then (P:=tried) _ _ _ w1); auto.
              ** right. right.
                 apply (untouched_then (P:=untouched) _ _ _ w1); auto.
    + (* the action raised: the loop stops in [w1] *)
      simpl. split; [exact Hm|].
      destruct (decide (i = start)) as [->|Hi].
      * destruct (triggered (FinanceManager.month (self w)) ev) eqn:Ht.
        -- specialize (Hfire eq_refl eq_refl).
           split; [lia|]. split; [discriminate|]. auto.
        -- destruct (Hidle eq_refl eq_refl) as [_ E]. discriminate.
      * specialize (Hne Hi). split; [auto|]. split; [auto|]. auto.
Qed.

Lemma events_phase_effect w i ev :
  FinanceManager.events (self w) !! i = Some ev ->
  let m := FinanceManager.month (self w) in
  (triggered m ev = false -> untouched i ev w (snd (events_phase w)))
  /\ (triggered m ev = true ->
      match fst (events_phase w) with
      | Returned _ => fired_now i ev w (snd (events_phase w))
      | Raised _ =>
          fired_now i ev w (snd (events_phase w))
          \/ tried i ev w (snd (events_phase w))
          \/ untouched i ev w (snd (events_phase w))
      end).
Proof.
  intros Hev m.
  destruct (events_loop (length (FinanceManager.events (self w))) 0 w i ev
              Hev) as (_ & _ & Hidle & Hfire).
  split; [exact Hidle|]. apply Hfire.
  apply lookup_lt_Some in Hev. lia.
Qed.

(** After its events, a step changes neither the events nor the record
    of the calls; and it only returns if its events did. *)
Lemma step_month_audit w :
  audit (snd (step_month w)) = audit (snd (events_phase w))
  /\ (forall s, fst (step_month w) = Returned s ->
      fst (events_phase w) = Returned tt).
Proof.
  pose proof (eq_refl (step_month w)) as E.
  unfold step_month at 2 in E. unfold bind at 1 in E.
  destruct (events_phase w) as [[[]|e] w1]; rewrite E; simpl.
  - split; [|reflexivity].
    match goal with
    | |- audit (snd (?rest w1)) = _ =>
        assert (keeps audit rest) as K by keeps_walk
    end.
    apply K.
  - split; [reflexivity|]. intros s Hs. discriminate.
Qed.

Lemma same_audit (P : nat -> Event.t -> World -> World -> Prop)
    i ev w w1 w2 :
  (P = untouched \/ P = fired_now \/ P = tried) ->
  audit w2 = audit w1 -> P i ev w w1 -> P i ev w w2.
Proof.
  unfold audit. intros HP Ha. injection Ha as He Hc.
  unfold invocations in *.
  destruct HP as [-> | [-> | ->]]; intros [H1 H2];
    split; unfold invocations in *; congruence.
Qed.

(** What a step does to an event. *)
Lemma step_month_effect w i ev :
  FinanceManager.events (self w) !! i = Some ev ->
  let m := FinanceManager.month (self w) in
  let w' := snd (step_month w) in
  (triggered m ev = false -> untouched i ev w w')
  /\ (triggered m ev = true ->
      (forall s, fst (step_month w) = Returned s -> fired_now i ev w w')
      /\ (fired_now i ev w w' \/ tried i ev w w' \/ untouched i ev w w')).
Proof.
  intros Hev m w'.
  destruct (events_phase_effect w i ev Hev) as [Hidle Hfire].
  destruct (step_month_audit w) as [Ha Hret]. fold w' in Ha.
  split.
  - intros Ht. apply (same_audit untouched _ _ _ _ _ (or_introl eq_refl) Ha).
    auto.
  - intros Ht. specialize (Hfire Ht). split.
    + intros s Hs. rewrite (Hret s Hs) in Hfire.
      apply (same_audit fired_now _ _ _ _ _
               (or_intror (or_introl eq_refl)) Ha Hfire).
    + destruct (fst (events_phase w)).
      * left. apply (same_audit fired_now _ _ _ _ _
                       (or_intror (or_introl eq_refl)) Ha Hfire).
      * destruct Hfire as [F | [F | F]].
        -- left. apply (same_audit fired_now _ _ _ _ _
                          (or_intror (or_introl eq_refl)) Ha F).
        -- right. left. apply (same_audit tried _ _ _ _ _
                                 (or_intror (or_intror eq_refl)) Ha F).
        -- right. right. apply (same_audit untouched _ _ _ _ _
                                  (or_introl eq_refl) Ha F).
Qed.

(** An executed event is out of reach of every later step. *)
Lemma executed_is_final w w' :
  later w w' ->
  forall i ev,
    FinanceManager.events (self w) !! i = Some ev ->
    Event.executed ev = true ->
    untouched i ev w w'.
Proof.
  induction 1 as [w | w w1 Hl IH | w w1 m Hl IH]; intros i ev Hev Hex.
  - now split.
  - specialize (IH i ev Hev Hex).
    destruct (step_month_effect w1 i ev (proj1 IH)) as [Hidle _].
    apply (untouched_then (P:=untouched) _ _ _ w1); auto.
    apply Hidle. unfold triggered. rewrite Hex. apply andb_false_r.
  - specialize (IH i ev Hev Hex). destruct IH as [He Hc]. now split.
Qed.




(** ** Runs that differ in the generator they start from *)

Lemma alike_refl w : alike w w.
Proof. now split. Qed.

Lemma blind_ret {A} (a : A) : blind (ret a).
Proof. intros w1 w2 H. now split. Qed.

Lemma blind_raise {A} e : blind (@raise A e).
Proof. intros w1 w2 H. now split. Qed.

Lemma blind_gets {A} (f : FinanceManager.t -> A) : blind (gets f).
Proof.
  intros w1 w2 [Hg Hs]. unfold gets. simpl. rewrite Hs. now split.
Qed.

Lemma blind_update f : blind (update f).
Proof.
  intros w1 w2 [Hg Hs]. unfold update, alike. simpl. now rewrite Hg, Hs.
Qed.

Lemma blind_draw {A}
    (f : NpRandom.RandomState -> A * NpRandom.RandomState) :
  blind (draw f).
Proof.
  intros w1 w2 [Hg Hs]. unfold draw, alike. rewrite Hg.
  destruct (f (np_random w2)). simpl. auto.
Qed.

Lemma blind_observe_call i : blind (observe_call i).
Proof. intros w1 w2 [Hg Hs]. unfold observe_call, alike. simpl. auto. Qed.

Lemma blind_bind {A B} (m : M A) (f : A -> M B) :
  blind m -> (forall a, blind (f a)) -> blind (bind m f).
Proof.
  intros Hm Hf w1 w2 H. unfold bind. destruct (Hm w1 w2 H) as [E Ha].
  destruct (m w1) as [[a1|e1] v1], (m w2) as [[a2|e2] v2];
    simpl in E, Ha; inversion E; subst.
  - now apply Hf.
  - now split.
Qed.

Lemma blind_for_range {A} n start (body : nat -> A -> M A) acc :
  (forall i a, blind (body i a)) -> blind (for_range n start body acc).
Proof.
  intros Hb. revert start acc.
  induction n as [|n IH]; intros start acc; simpl.
  - apply blind_ret.
  - apply blind_bind; auto.
Qed.

Lemma blind_for_each {Y A} (xs : list Y) (body : Y -> A -> M A) acc :
  (forall x a, blind (body x a)) -> blind (for_each xs body acc).
Proof.
  intros Hb. revert acc.
  induction xs as [|x xs IH]; intros acc; simpl.
  - apply blind_ret.
  - apply blind_bind; auto.
Qed.

Lemma blind_divide x y : blind (divide x y).
Proof.
  unfold divide. destruct (Num.div x y); [apply blind_ret|apply blind_raise].
Qed.

Lemma blind_from_option {A} (o : option A) e : blind (from_option o e).
Proof. destruct o; [apply blind_ret|apply blind_raise]. Qed.

Create HintDb blind.

(** Walks through a method built from the monad's operations. *)
Ltac blind_walk :=
  repeat first
    [ apply blind_ret | apply blind_raise | apply blind_gets
    | apply blind_divide | apply blind_from_option
    | apply blind_update | apply blind_draw | apply blind_observe_call
    | solve [auto with blind]
    | apply blind_bind; [|intros]
    | apply blind_for_range; intros
    | apply blind_for_each; intros
    | match goal with
      | |- blind (match ?x with _ => _ end) => destruct x
      | |- blind (let (_, _) := ?x in _) => destruct x
      end ].

Lemma blind_is_due {T} `{Recurring T} (o : T) : blind (_is_due o).
Proof. unfold _is_due. blind_walk. Qed.

Lemma blind_get_object ty name : blind (get_object ty name).
Proof. unfold get_object. blind_walk. Qed.

#[local] Hint Resolve blind_is_due blind_get_object : blind.

Lemma blind_call_action a : blind (call_action a).
Proof. unfold call_action, assign_amount. blind_walk. Qed.

#[local] Hint Resolve blind_call_action : blind.

Lemma blind_call_metric f : blind (call_metric f).
Proof.
  destruct f; simpl;
    unfold total_monthly_income_equivalent,
      total_monthly_expense_equivalent, total_investments,
      total_dividends_monthly_equivalent, sum_of;
    blind_walk.
Qed.

#[local] Hint Resolve blind_call_metric : blind.

Lemma blind_step_month : blind step_month.
Proof.
  unfold step_month, events_phase, Event_apply, incomes_phase,
    expenses_phase, dividends_phase, revaluation_phase, yearly_phase,
    sweep_phase, sweep_entry, _apply_increments_if_cycle_end, total_investments,
    sum_of, _targets_status, Target_is_reached, Target_status, item,
    add_cash, sub_cash, update_investment, get_investment.
  blind_walk.
Qed.

#[local] Hint Resolve blind_step_month : blind.

Lemma blind_run months : blind (run months).
Proof. unfold run. blind_walk. Qed.

Lemma blind_configure c : blind (configure c).
Proof.
  destruct c; simpl;
    unfold add_income, add_expense, add_investment, add_event, add_target,
      _validate_recurrence;
    blind_walk.
Qed.

#[local] Hint Resolve blind_run blind_configure : blind.

(** ** The order of the draws *)

Lemma revaluation_draws v st :
  snd (Investment.revaluation v st)
  = NpRandom.mk (NpRandom.samples st) (NpRandom.consumed st + draws v st).
Proof.
  unfold Investment.revaluation, draws.
  destruct (Investment.active v); [|destruct st; simpl; f_equal; lia].
  destruct (NpRandom.rand st) as [u st1] eqn:E1. cbn [fst].
  assert (st1 = NpRandom.mk (NpRandom.samples st) (S (NpRandom.consumed st)))
    as -> by (unfold NpRandom.rand, NpRandom.next in E1; congruence).
  destruct (Num.gtb (Investment.volatility v) u).
  - unfold NpRandom.rand, NpRandom.choice, NpRandom.next.
    cbn [fst snd NpRandom.samples NpRandom.consumed]. f_equal. lia.
  - cbn [snd]. f_equal. lia.
Qed.

Lemma set_investments_same s :
  Set_.investments (FinanceManager.investments s) s = s.
Proof. now destruct s. Qed.

(** The loop of the revaluations, with the investments before
    position [length done] already dealt with. *)
Lemma revaluation_loop rest : forall done w,
  FinanceManager.investments (self w) = done ++ rest ->
  for_range (length rest) (length done)
    (fun i _ =>
       o <- item FinanceManager.investments i ;;
       match o with
       | Some inv =>
           inv' <- draw (Investment.revaluation inv) ;;
           update_investment i (fun _ => inv')
       | None => ret tt
       end) tt w
  = (Returned tt,
     mkWorld (snd (revalue_all rest (np_random w)))
       (Set_.investments (done ++ fst (revalue_all rest (np_random w)))
          (self w))
       (calls w)).
Proof.
  induction rest as [|v rest IH]; intros done w Hw.
  - simpl. rewrite <- Hw, set_investments_same. now destruct w.
  - cbn [length for_range revalue_all].
    unfold bind at 1. unfold bind at 1. unfold item at 1, gets at 1.
    rewrite Hw, list_lookup_middle by reflexivity.
    unfold bind at 1. unfold draw at 1. cbn [np_random self calls].
    destruct (Investment.revaluation v (np_random w)) as [v' st1].
    unfold update_investment at 1, update at 1.
    cbn [np_random self calls FinanceManager.investments].
    rewrite Hw.
    replace (alter (fun _ => v') (length done) (done ++ v :: rest))
      with ((done ++ [v']) ++ rest).
    2:{ rewrite <- app_assoc. simpl.
        clear. induction done as [|d done IHd]; simpl; [reflexivity|].
        now f_equal. }
    replace (S (length done)) with (length (done ++ [v']))
      by (rewrite length_app; simpl; lia).
    rewrite IH by reflexivity.
    cbn [np_random self calls].
    destruct (revalue_all rest st1) as [rest' st2]. simpl.
    now rewrite <- app_assoc.
Qed.

(** C9: a run constructs the engine with a seed, configures it and
    runs it for a number of months.  Two runs with the same configuration
    return the same snapshots, or raise the same exception, whatever the
    states of the generator (and of the engine and the record of calls)
    they start from: the constructor reseeds the generator.  In
    particular their [cash] and [investments_total] columns are the same.
    Within a month the revaluations draw in the order of the list of
    investments, each taking the generator where the one before left it;
    an inactive investment draws nothing, an active one draws once, and
    twice more when that draw decides for a shock. *)
Theorem same_seed_same_run
    (sequence_of_seed : Z -> nat -> Q) (cfg : Config) (months : Z) :
  (forall w1 w2,
     fst (simulate sequence_of_seed cfg months w1)
     = fst (simulate sequence_of_seed cfg months w2)
     /\ trajectory (fst (simulate sequence_of_seed cfg months w1))
        = trajectory (fst (simulate sequence_of_seed cfg months w2))
     /\ self (snd (simulate sequence_of_seed cfg months w1))
        = self (snd (simulate sequence_of_seed cfg months w2)))
  /\ (forall w,
        revaluation_phase w
        = (Returned tt,
           mkWorld
             (snd (revalue_all (FinanceManager.investments (self w))
                     (np_random w)))
             (Set_.investments
                (fst (revalue_all (FinanceManager.investments (self w))
                        (np_random w)))
                (self w))
             (calls w)))
  /\ (forall v st,
        snd (Investment.revaluation v st)
        = NpRandom.mk (NpRandom.samples st)
            (NpRandom.consumed st + draws v st)).
Proof.
  split; [|split].
  - intros w1 w2.
    assert (fst (simulate sequence_of_seed cfg months w1)
            = fst (simulate sequence_of_seed cfg months w2)
            /\ alike (snd (simulate sequence_of_seed cfg months w1))
                 (snd (simulate sequence_of_seed cfg months w2)))
      as [E [_ Hs]].
    { unfold simulate. unfold bind at 1 3. unfold __init__.
      assert (blind (for_each (entities cfg) (fun c _ => configure c) tt ;;;
                     run months)) as Hb by blind_walk.
      apply Hb. now split. }
    split; [exact E|]. split; [now rewrite E|exact Hs].
  - intros w. unfold revaluation_phase. run_gets.
    exact (revaluation_loop _ [] w eq_refl).
  - apply revaluation_draws.
Qed.

(** * Further properties *)

(** ** Due months *)

(** X1: an income or expense whose recurrence is not zero is due
    exactly when it is active and the engine's month is a multiple of its
    recurrence; the test changes nothing. *)
Theorem is_due_on_multiples {T} `{Recurring T} (obj : T) (w : World) :
  flow_recurrence obj <> 0 ->
  exists due,
    _is_due obj w = (Returned due, w)
    /\ (due = true
        <-> flow_is_active obj = true
            /\ exists k,
                 FinanceManager.month (self w) = k * flow_recurrence obj).
Proof.
  intros Hrec. unfold _is_due.
  destruct (flow_is_active obj).
  - unfold bind, gets. apply Z.eqb_neq in Hrec. rewrite Hrec.
    apply Z.eqb_neq in Hrec. eexists. split; [reflexivity|].
    rewrite Z.eqb_eq, Z.mod_divide by exact Hrec. unfold Z.divide. tauto.
  - exists false. split; [reflexivity|]. split; [discriminate|].
    intros [E _]. discriminate.
Qed.

Lemma is_due_on_multiples_witness :
  let rent := Income.init "Rent" (Num.of_Z 900) 3 false Num.zero in
  flow_recurrence rent <> 0
  /\ exists due,
       _is_due rent salaried = (Returned due, salaried)
       /\ (due = true
           <-> flow_is_active rent = true
               /\ exists k,
                    FinanceManager.month (self salaried)
                    = k * flow_recurrence rent).
Proof.
  intros rent. split; [discriminate|].
  apply (is_due_on_multiples rent salaried). discriminate.
Defined.

(** ** Invariants of method calls *)

Section Preserves.
Context (I : World -> Prop).

Lemma preserves_ret {A} (a : A) : preserves I (ret a).
Proof. now intros w. Qed.

Lemma preserves_raise {A} e : preserves I (@raise A e).
Proof. now intros w. Qed.

Lemma preserves_gets {A} (f : FinanceManager.t -> A) : preserves I (gets f).
Proof. now intros w. Qed.

Lemma preserves_bind {A B} (m : M A) (f : A -> M B) :
  preserves I m -> (forall a, preserves I (f a)) -> preserves I (bind m f).
Proof.
  intros Hm Hf w Hw. unfold bind. specialize (Hm w Hw).
  destruct (m w) as [[a|e] w1]; simpl in *; [now apply Hf|exact Hm].
Qed.

Lemma preserves_for_range {A} n start (body : nat -> A -> M A) acc :
  (forall i a, preserves I (body i a)) ->
  preserves I (for_range n start body acc).
Proof.
  intros Hb. revert start acc.
  induction n as [|n IH]; intros start acc; simpl.
  - apply preserves_ret.
  - apply preserves_bind; auto.
Qed.

Lemma preserves_for_each {Y A} (xs : list Y) (body : Y -> A -> M A) acc :
  (forall x a, preserves I (body x a)) ->
  preserves I (for_each xs body acc).
Proof.
  intros Hb. revert acc.
  induction xs as [|x xs IH]; intros acc; simpl.
  - apply preserves_ret.
  - apply preserves_bind; auto.
Qed.

Lemma preserves_divide x y : preserves I (divide x y).
Proof.
  unfold divide.
  destruct (Num.div x y); [apply preserves_ret|apply preserves_raise].
Qed.

Lemma preserves_from_option {A} (o : option A) e :
  preserves I (from_option o e).
Proof. destruct o; [apply preserves_ret|apply preserves_raise]. Qed.

Lemma safe_ret {A} (a : A) : safe I (ret a).
Proof. intros w Hw. simpl. eauto. Qed.

Lemma safe_gets {A} (f : FinanceManager.t -> A) : safe I (gets f).
Proof. intros w Hw. simpl. eauto. Qed.

Lemma safe_bind {A B} (m : M A) (f : A -> M B) :
  safe I m -> (forall a, safe I (f a)) -> safe I (bind m f).
Proof.
  intros Hm Hf w Hw. unfold bind. destruct (Hm w Hw) as [Hw1 [a Ha]].
  destruct (m w) as [[a'|e] w1]; simpl in *; [now apply Hf|discriminate].
Qed.

Lemma safe_for_range {A} n start (body : nat -> A -> M A) acc :
  (forall i a, safe I (body i a)) -> safe I (for_range n start body acc).
Proof.
  intros Hb. revert start acc.
  induction n as [|n IH]; intros start acc; simpl.
  - apply safe_ret.
  - apply safe_bind; auto.
Qed.

Lemma safe_for_each {Y A} (xs : list Y) (body : Y -> A -> M A) acc :
  (forall x a, safe I (body x a)) -> safe I (for_each xs body acc).
Proof.
  intros Hb. revert acc.
  induction xs as [|x xs IH]; intros acc; simpl.
  - apply safe_ret.
  - apply safe_bind; auto.
Qed.

End Preserves.

(** Runs a piece of code without loops on a symbolic state, splitting
    at every test. *)
Ltac straight :=
  unfold item, update_investment, add_cash, sub_cash, divide, from_option;
  unfold bind, gets, update, ret, raise, draw, observe_call;
  cbn [fst snd np_random self calls];
  repeat (case_match;
          cbn [fst snd np_random self calls] in *;
          simplify_eq).

(** ** What stays of the configuration *)

Lemma fmap_alter_same {X Y} (g : X -> Y) (f : X -> X) i (l : list X) :
  (forall x, g (f x) = g x) -> g <$> alter f i l = g <$> l.
Proof.
  intros Hf. revert i. induction l as [|x l IH]; intros i; [reflexivity|].
  destruct i as [|i]; simpl; f_equal; auto.
  specialize (IH i). unfold alter in IH. exact IH.
Qed.

Lemma fmap_insert_at {X Y} (g : X -> Y) (y x : X) i (l : list X) :
  l !! i = Some x -> g y = g x -> g <$> <[i := y]> l = g <$> l.
Proof.
  revert i. induction l as [|z l IH]; intros i Hl Hg; [reflexivity|].
  destruct i as [|i]; simpl in *.
  - inversion Hl; subst. now f_equal.
  - f_equal. specialize (IH i Hl Hg). unfold insert in IH. exact IH.
Qed.

Lemma fmap_alter_at {X Y} (g : X -> Y) (y x : X) i (l : list X) :
  l !! i = Some x -> g y = g x -> g <$> alter (fun _ => y) i l = g <$> l.
Proof.
  revert i. induction l as [|z l IH]; intros i Hl Hg; [reflexivity|].
  destruct i as [|i]; simpl in *.
  - inversion Hl; subst. now f_equal.
  - f_equal. specialize (IH i Hl Hg). unfold alter in IH. exact IH.
Qed.

Create HintDb structure.

(** An assignment that changes amounts, cash, month, history or marks
    leaves the configuration as it is. *)
Ltac structure_open :=
  unfold structure; cbn [fst snd self np_random calls];
  unfold Set_.cash, Set_.month, Set_.history, Set_.incomes, Set_.expenses,
    Set_.investments, Set_.events;
  cbn [FinanceManager.incomes FinanceManager.expenses
       FinanceManager.investments FinanceManager.events
       FinanceManager.targets FinanceManager.reinvest_dividends
       FinanceManager.invest_sweep_rate FinanceManager.allocation].

Ltac structure_update :=
  structure_open;
  repeat (rewrite fmap_alter_same
            by (let v := fresh "v" in
                intros v;
                unfold Investment.add_funds, Investment.yearly_increase;
                try destruct (Investment.active v); reflexivity));
  reflexivity.

Ltac structure_walk :=
  repeat first
    [ apply keeps_ret | apply keeps_raise | apply keeps_gets
    | apply keeps_divide | apply keeps_from_option
    | solve [auto with structure]
    | apply keeps_bind; [|intros]
    | apply keeps_for_range; intros
    | apply keeps_for_each; intros
    | apply keeps_draw; intros; reflexivity
    | apply keeps_observe_call; intros; reflexivity
    | apply keeps_update; intros; structure_update
    | match goal with
      | |- keeps _ (match ?x with _ => _ end) => destruct x
      | |- keeps _ (let (_, _) := ?x in _) => destruct x
      end ].

Lemma is_due_structure {T} `{Recurring T} (o : T) :
  keeps structure (_is_due o).
Proof. unfold _is_due. structure_walk. Qed.

Lemma get_object_structure ty name : keeps structure (get_object ty name).
Proof. unfold get_object. structure_walk. Qed.

#[local] Hint Resolve is_due_structure get_object_structure : structure.

Lemma call_action_structure a : keeps structure (call_action a).
Proof. unfold call_action, assign_amount. structure_walk. Qed.

#[local] Hint Resolve call_action_structure : structure.

Lemma events_phase_structure : keeps structure events_phase.
Proof. unfold events_phase, Event_apply, item. structure_walk. Qed.

Lemma incomes_phase_structure : keeps structure incomes_phase.
Proof. unfold incomes_phase, item, add_cash. structure_walk. Qed.

Lemma expenses_phase_structure : keeps structure expenses_phase.
Proof. unfold expenses_phase, item, sub_cash. structure_walk. Qed.

Lemma dividends_phase_structure : keeps structure dividends_phase.
Proof.
  unfold dividends_phase, item, add_cash, update_investment. structure_walk.
Qed.

Lemma revaluation_same_structure v st :
  Investment.set_amount Num.zero (fst (Investment.revaluation v st))
  = Investment.set_amount Num.zero v.
Proof.
  unfold Investment.revaluation.
  destruct (Investment.active v); [|reflexivity].
  destruct (NpRandom.rand st) as [u st1].
  destruct (Num.gtb (Investment.volatility v) u); [|reflexivity].
  destruct (NpRandom.rand st1) as [d st2].
  now destruct (NpRandom.choice _ _ st2).
Qed.

Lemma revaluation_phase_structure : keeps structure revaluation_phase.
Proof.
  unfold revaluation_phase. apply keeps_bind; [apply keeps_gets|intros n].
  apply keeps_for_range. intros i []. intros w. straight; [|reflexivity].
  structure_open.
  match goal with
  | H : Investment.revaluation ?v ?st = (?v', _) |- _ =>
      rewrite (fmap_alter_at _ v' v); [reflexivity|assumption|];
      pose proof (revaluation_same_structure v st) as E;
      rewrite H in E; exact E
  end.
Qed.

Lemma yearly_phase_structure : keeps structure yearly_phase.
Proof. unfold yearly_phase, update_investment. structure_walk. Qed.

Lemma sweep_phase_structure : keeps structure sweep_phase.
Proof.
  unfold sweep_phase, sweep_entry, get_investment, update_investment,
    sub_cash.
  structure_walk.
Qed.

Lemma increments_structure : keeps structure _apply_increments_if_cycle_end.
Proof.
  unfold _apply_increments_if_cycle_end.
  apply keeps_bind; [apply keeps_gets|intros n].
  apply keeps_bind; [|intros _; apply keeps_bind; [apply keeps_gets|intros m]].
  - apply keeps_for_range. intros i []. intros w. unfold _is_due. straight;
      try reflexivity.
    structure_open.
    match goal with
    | H : _ !! i = Some ?x |- _ =>
        rewrite (fmap_insert_at _ _ x); [reflexivity|assumption|]
    end.
    unfold Income.apply_increment. now case_match.
  - apply keeps_for_range. intros i []. intros w. unfold _is_due. straight;
      try reflexivity.
    structure_open.
    match goal with
    | H : _ !! i = Some ?x |- _ =>
        rewrite (fmap_insert_at _ _ x); [reflexivity|assumption|]
    end.
    unfold Expense.apply_increment. now case_match.
Qed.

Lemma call_metric_structure f : keeps structure (call_metric f).
Proof.
  destruct f; simpl;
    unfold total_monthly_income_equivalent,
      total_monthly_expense_equivalent, total_investments,
      total_dividends_monthly_equivalent, sum_of;
    structure_walk.
Qed.

#[local] Hint Resolve call_metric_structure : structure.

Lemma targets_status_structure : keeps structure _targets_status.
Proof.
  unfold _targets_status, Target_is_reached, Target_status. structure_walk.
Qed.

#[local] Hint Resolve events_phase_structure incomes_phase_structure
  expenses_phase_structure dividends_phase_structure
  revaluation_phase_structure yearly_phase_structure sweep_phase_structure
  increments_structure targets_status_structure : structure.

Lemma step_month_structure : keeps structure step_month.
Proof. unfold step_month, total_investments, sum_of. structure_walk. Qed.

Lemma later_structure w w' : later w w' -> structure w' = structure w.
Proof.
  induction 1 as [w | w w1 Hl IH | w w1 m Hl IH]; [reflexivity| |].
  - now rewrite step_month_structure.
  - rewrite <- IH. reflexivity.
Qed.

(** X2: whatever sequence of steps is run, returning or raising, and
    whatever the caller sets the month to in between, the configuration of
    the engine stays what it was: no income, expense, investment, event or
    target is added, removed, renamed, re-scheduled, activated or
    deactivated, and the allocation, the sweep rate and the dividend
    switch are not touched.  Only amounts, cash, month, history and the
    marks of the events change. *)
Theorem steps_keep_structure (w w' : World) :
  later w w' -> structure w' = structure w.
Proof.
  induction 1 as [w | w w1 Hl IH | w w1 m Hl IH].
  - reflexivity.
  - rewrite <- IH. apply step_month_structure.
  - rewrite <- IH. reflexivity.
Qed.

Lemma steps_keep_structure_witness :
  later promoted (snd (step_month promoted))
  /\ structure (snd (step_month promoted)) = structure promoted.
Proof.
  split; [apply later_step, later_now|].
  apply (steps_keep_structure promoted (snd (step_month promoted))).
  apply later_step, later_now.
Defined.

(** ** Recurrences *)

Lemma Forall_same_image {X Y} (g : X -> Y) (P : X -> Prop)
    (Q : Y -> Prop) (l l' : list X) :
  (forall x, P x <-> Q (g x)) -> g <$> l' = g <$> l ->
  Forall P l -> Forall P l'.
Proof.
  intros HPQ E Hl.
  assert (forall k, Forall P k <-> Forall Q (g <$> k)) as Hk.
  { intros k. rewrite Forall_fmap. apply Forall_iff. intros x. apply HPQ. }
  apply Hk. rewrite E. now apply Hk.
Qed.

Lemma well_formed_structure w w' :
  structure w' = structure w -> well_formed w -> well_formed w'.
Proof.
  unfold structure, well_formed. intros E [Hi He].
  injection E as Ei Ee _ _ _ _ _ _.
  split.
  - apply (Forall_same_image (Income.set_amount Num.zero)
             (fun i => 1 <= Income.recurrence i)
             (fun i => 1 <= Income.recurrence i) _ _
             ltac:(reflexivity) Ei Hi).
  - apply (Forall_same_image (Expense.set_amount Num.zero)
             (fun e => 1 <= Expense.recurrence e)
             (fun e => 1 <= Expense.recurrence e) _ _
             ltac:(reflexivity) Ee He).
Qed.

Lemma configure_well_formed c : preserves well_formed (configure c).
Proof.
  intros w [Hi He]. destruct c as [i|e|v|ev|t]; simpl;
    unfold add_income, add_expense, add_investment, add_event, add_target,
      _validate_recurrence.
  - destruct (Income.recurrence i <? 1) eqn:Hr; [now split|].
    apply Z.ltb_ge in Hr. split; simpl; [|exact He].
    apply Forall_app. split; [exact Hi|]. now constructor.
  - destruct (Expense.recurrence e <? 1) eqn:Hr; [now split|].
    apply Z.ltb_ge in Hr. split; simpl; [exact Hi|].
    apply Forall_app. split; [exact He|]. now constructor.
  - now split.
  - now split.
  - now split.
Qed.

(** X3: in an engine made by the constructor and configured through
    the adders, every income and every expense has a recurrence of at
    least one month, and this stays so through every later step: an adder
    refuses a recurrence below one with a [ValueError] and adds nothing,
    and no step changes a recurrence. *)
Theorem recurrences_stay_valid
    (sequence_of_seed : Z -> nat -> Q) (cfg : Config) (w0 w' : World) :
  later (snd (construct sequence_of_seed cfg w0)) w' -> well_formed w'.
Proof.
  intros Hl. apply (well_formed_structure _ _ (later_structure _ _ Hl)).
  unfold construct. unfold bind at 1. unfold __init__ at 1.
  apply preserves_for_each.
  - intros c []. apply configure_well_formed.
  - split; constructor.
Qed.

Lemma recurrences_stay_valid_witness :
  let cfg :=
    mkConfig 0 (Num.of_Z 15000) false Num.zero None 42
      [AddIncome (Income.init "Salary" (Num.of_Z 20000) 1 false Num.zero);
       AddExpense (Expense.init "Rent" (Num.of_Z 6000) 0 false Num.zero)] in
  let w := snd (construct (fun _ _ => 0%Q) cfg promoted) in
  later w (snd (step_month w))
  /\ well_formed (snd (step_month w))
  /\ FinanceManager.expenses (self w) = [].
Proof.
  intros cfg w. split; [apply later_step, later_now|]. split.
  - apply (recurrences_stay_valid (fun _ _ => 0%Q) cfg promoted).
    apply later_step, later_now.
  - reflexivity.
Defined.

(** ** Steps that cannot raise *)

Lemma safe_for_each_in {Y A} (I : World -> Prop) (xs : list Y)
    (body : Y -> A -> M A) acc :
  (forall x a, x ∈ xs -> safe I (body x a)) ->
  safe I (for_each xs body acc).
Proof.
  revert acc. induction xs as [|x xs IH]; intros acc Hb; simpl.
  - apply safe_ret.
  - apply safe_bind.
    + apply Hb. now left.
    + intros a. apply IH. intros y b Hy. apply Hb. now right.
Qed.

(** A call that is safe for what it needs is safe for whatever else
    it preserves. *)
Lemma safe_from {A} (I J : World -> Prop) (m : M A) :
  (forall w, J w -> I w) -> safe I m -> preserves J m -> safe J m.
Proof.
  intros HJI Hs Hp w Hw. split; [now apply Hp|].
  now destruct (Hs w (HJI w Hw)).
Qed.

Lemma calm_kept w w' :
  structure w' = structure w ->
  FinanceManager.events (self w') = FinanceManager.events (self w) ->
  calm w -> calm w'.
Proof.
  intros Es Ee (Hwf & Hev & Hgo & Hsw).
  split; [now apply (well_formed_structure w)|].
  split; [now rewrite Ee|].
  unfold structure in Es. injection Es as _ _ _ _ Et _ Er Ea.
  split; [now rewrite Et|].
  unfold sweep_sound. now rewrite Er, Ea.
Qed.

(** A phase that changes neither the configuration nor the events
    keeps the engine calm. *)
Lemma calm_preserved {A} (m : M A) :
  keeps structure m -> keeps frame m -> preserves calm m.
Proof.
  intros Hs Hf w Hw. apply (calm_kept w); auto.
  specialize (Hf w). unfold frame in Hf. now injection Hf.
Qed.

(** With no pending event, the first phase does nothing. *)
Lemma events_loop_idle n : forall start w,
  Forall (fun ev => Event.executed ev = true)
    (FinanceManager.events (self w)) ->
  for_range n start
    (fun i _ => month <- gets FinanceManager.month ;; Event_apply i month)
    tt w
  = (Returned tt, w).
Proof.
  induction n as [|n IH]; intros start w Hex; [reflexivity|].
  rewrite events_loop_step, Event_apply_run.
  destruct (FinanceManager.events (self w) !! start) as [ev|] eqn:Hev;
    [|now apply IH].
  assert (Event.executed ev = true) as Hx
    by apply (Forall_lookup_1 _ _ _ _ Hex Hev).
  unfold triggered. rewrite Hx, andb_false_r. now apply IH.
Qed.

Lemma events_phase_idle w :
  Forall (fun ev => Event.executed ev = true)
    (FinanceManager.events (self w)) ->
  events_phase w = (Returned tt, w).
Proof.
  intros Hex. unfold events_phase. run_gets. now apply events_loop_idle.
Qed.

Lemma events_phase_calm : safe calm events_phase.
Proof.
  intros w Hw. rewrite events_phase_idle by apply Hw. simpl. eauto.
Qed.

(** Reads a fact about the element at a position off a [Forall]. *)
Ltac forall_at H :=
  match goal with
  | L : ?l !! _ = Some ?x |- _ =>
      let F := fresh "F" in
      pose proof (Forall_lookup_1 _ _ _ _ H L) as F; cbn beta in F
  end.

Lemma incomes_phase_returns :
  safe (fun w => Forall (fun i => 1 <= Income.recurrence i)
                   (FinanceManager.incomes (self w)))
    incomes_phase.
Proof.
  unfold incomes_phase. apply safe_bind; [apply safe_gets|intros n].
  apply safe_for_range. intros i acc w Hw. unfold _is_due. straight;
    try (split; [exact Hw|eauto]).
  forall_at Hw. simpl in *. lia.
Qed.

Lemma expenses_phase_returns :
  safe (fun w => Forall (fun e => 1 <= Expense.recurrence e)
                   (FinanceManager.expenses (self w)))
    expenses_phase.
Proof.
  unfold expenses_phase. apply safe_bind; [apply safe_gets|intros n].
  apply safe_for_range. intros i acc w Hw. unfold _is_due. straight;
    try (split; [exact Hw|eauto]).
  forall_at Hw. simpl in *. lia.
Qed.

Lemma div_twelve x : Num.div x twelve = Some (Num.lift2 Num.fdiv x twelve).
Proof.
  unfold Num.div. replace (Num.is_zero twelve) with false by reflexivity.
  now rewrite andb_false_r.
Qed.

Lemma dividends_phase_returns : safe (fun _ => True) dividends_phase.
Proof.
  unfold dividends_phase. apply safe_bind; [apply safe_gets|intros n].
  apply safe_for_range. intros i acc w _. straight; eauto.
  match goal with
  | H : Num.div _ twelve = None |- _ => rewrite div_twelve in H; discriminate
  end.
Qed.

Lemma revaluation_phase_returns : safe (fun _ => True) revaluation_phase.
Proof.
  unfold revaluation_phase. apply safe_bind; [apply safe_gets|intros n].
  apply safe_for_range. intros i acc w _. straight; eauto.
Qed.

Lemma yearly_phase_returns : safe (fun _ => True) yearly_phase.
Proof.
  unfold yearly_phase. apply safe_bind; [apply safe_gets|intros month].
  destruct ((month + 1) mod 12 =? 0); [|apply safe_ret].
  apply safe_bind; [apply safe_gets|intros n].
  apply safe_for_range. intros i acc w _. straight; eauto.
Qed.

Lemma not_leb_zero_not_zero x :
  Num.leb x Num.zero = false -> Num.is_zero x = false.
Proof.
  unfold Num.leb, Num.fle, Num.is_zero. intros H.
  apply orb_false_iff in H. apply H.
Qed.

Lemma sweep_phase_returns : safe sweep_sound sweep_phase.
Proof.
  intros w Hw.
  assert (preserves sweep_sound sweep_phase) as Hp.
  { intros v Hv. unfold sweep_sound.
    pose proof (sweep_phase_structure v) as E. unfold structure in E.
    injection E as _ _ _ _ _ _ Er Ea. now rewrite Er, Ea. }
  split; [now apply Hp|].
  unfold sweep_phase. run_gets. run_gets.
  destruct Hw as [Hoff | Htotal].
  - rewrite Hoff. simpl. eauto.
  - destruct (_ && _); [|simpl; eauto].
    run_gets. cbv zeta.
    destruct (Num.gtb _ Num.zero); [|simpl; eauto].
    rewrite Htotal.
    assert (safe (fun _ => True)
              (for_each (FinanceManager.allocation (self w))
                 (sweep_entry
                    (Num.max Num.zero
                       (Num.mul (FinanceManager.cash (self w))
                          (FinanceManager.invest_sweep_rate (self w))))
                    (Num.sum (snd <$> FinanceManager.allocation (self w))))
                 Num.zero)) as Hloop.
    { apply safe_for_each. intros [name weight] acc v _.
      rewrite sweep_entry_run by now apply not_leb_zero_not_zero.
      destruct (sweep_target _ _); simpl; eauto. }
    destruct (Hloop w I) as [_ [invested Hi]].
    unfold bind at 1.
    destruct (for_each _ _ _ w) as [[a|e] w1]; simpl in Hi; [|discriminate].
    simpl. eauto.
Qed.

Lemma increments_returns : safe well_formed _apply_increments_if_cycle_end.
Proof.
  unfold _apply_increments_if_cycle_end.
  apply safe_bind; [apply safe_gets|intros n].
  apply safe_bind; [|intros _; apply safe_bind; [apply safe_gets|intros m]].
  - apply safe_for_range. intros i acc w Hw. unfold _is_due.
    pose proof Hw as [Hi He]. straight;
      try (split; [exact Hw|eauto]); try (forall_at Hi; simpl in *; lia).
    split; [|eauto]. split; [|exact He]. simpl.
    apply Forall_insert; [exact Hi|].
    forall_at Hi. unfold Income.apply_increment. now case_match.
  - apply safe_for_range. intros i acc w Hw. unfold _is_due.
    pose proof Hw as [Hi He]. straight;
      try (split; [exact Hw|eauto]); try (forall_at He; simpl in *; lia).
    split; [|eauto]. split; [exact Hi|]. simpl.
    apply Forall_insert; [exact He|].
    forall_at He. unfold Expense.apply_increment. now case_match.
Qed.

(** A sum over a list returns if each of its terms does; it changes
    nothing. *)
Lemma sum_of_returns {X} (xs : list X) keep (f : X -> M num) w :
  (forall x, x ∈ xs -> keep x = true -> exists v, f x w = (Returned v, w)) ->
  exists total, sum_of xs keep f w = (Returned total, w).
Proof.
  unfold sum_of. generalize Num.zero as acc.
  induction xs as [|x xs IH]; intros acc Hf; simpl; [eauto|].
  unfold bind at 1. destruct (keep x) eqn:Hk.
  - destruct (Hf x ltac:(now left) Hk) as [v Hv].
    unfold bind at 1. rewrite Hv. simpl.
    apply IH. intros y Hy. apply Hf. now right.
  - simpl. apply IH. intros y Hy. apply Hf. now right.
Qed.

Lemma of_Z_not_zero z : 1 <= z -> Num.is_zero (Num.of_Z z) = false.
Proof.
  intros Hz. unfold Num.is_zero, Num.of_Z. simpl.
  apply not_true_iff_false. rewrite Qeq_bool_iff.
  unfold Qeq, inject_Z. simpl. lia.
Qed.

Lemma total_dividends_returns w :
  exists total, total_dividends_monthly_equivalent w = (Returned total, w).
Proof.
  unfold total_dividends_monthly_equivalent. run_gets.
  apply sum_of_returns. intros v _ _. unfold divide. rewrite div_twelve.
  eauto.
Qed.

Lemma total_investments_returns w :
  exists total, total_investments w = (Returned total, w).
Proof.
  unfold total_investments. run_gets.
  apply sum_of_returns. intros v _ _. eauto.
Qed.

(** In a well-formed engine every aggregate returns, and changes
    nothing. *)
Lemma call_metric_returns f w :
  well_formed w -> exists current, call_metric f w = (Returned current, w).
Proof.
  intros [Hi He]. destruct f; simpl.
  - unfold total_monthly_income_equivalent. run_gets.
    assert (exists div,
              (if negb (FinanceManager.reinvest_dividends (self w))
               then total_dividends_monthly_equivalent
               else ret Num.zero) w = (Returned div, w)) as [div Hd].
    { destruct (negb _); [apply total_dividends_returns|simpl; eauto]. }
    rewrite (bind_returned _ _ _ _ _ Hd). run_gets.
    destruct (sum_of_returns (FinanceManager.incomes (self w))
                Income.is_active
                (fun i => from_option (Income.monthly_equivalent i)
                            ZeroDivisionError) w) as [inc Hinc].
    { intros i Hin Hact. rewrite Forall_forall in Hi.
      unfold Income.monthly_equivalent, Num.div.
      unfold Income.is_active in Hact. rewrite Hact.
      rewrite of_Z_not_zero by now apply Hi. rewrite andb_false_r.
      simpl. eauto. }
    rewrite (bind_returned _ _ _ _ _ Hinc). simpl. eauto.
  - unfold total_monthly_expense_equivalent. run_gets.
    apply sum_of_returns. intros e Hin Hact. rewrite Forall_forall in He.
    unfold Expense.monthly_equivalent, Num.div.
    unfold Expense.is_active in Hact. rewrite Hact.
    rewrite of_Z_not_zero by now apply He. rewrite andb_false_r.
    simpl. eauto.
  - apply total_investments_returns.
  - apply total_dividends_returns.
Qed.

Lemma Target_status_returns t w :
  well_formed w -> Num.is_zero (Target.goal_value t) = false ->
  exists st, Target_status t w = (Returned st, w).
Proof.
  intros Hwf Hz. unfold Target_status.
  destruct (call_metric_returns (Target.check_function t) w Hwf) as [c Hc].
  rewrite (bind_returned _ _ _ _ _ Hc).
  unfold bind, divide, Num.div. rewrite Hz, andb_false_r. simpl. eauto.
Qed.

Lemma Target_is_reached_returns t w :
  well_formed w -> Num.is_zero (Target.goal_value t) = false ->
  exists reached, Target_is_reached t w = (Returned reached, w).
Proof.
  intros Hwf Hz. unfold Target_is_reached.
  destruct (Target_status_returns t w Hwf Hz) as [st Hst].
  rewrite (bind_returned _ _ _ _ _ Hst). simpl. eauto.
Qed.

Lemma targets_status_returns w :
  well_formed w ->
  Forall (fun t => Num.is_zero (Target.goal_value t) = false)
    (FinanceManager.targets (self w)) ->
  exists statuses, _targets_status w = (Returned statuses, w).
Proof.
  intros Hwf Hts. unfold _targets_status. run_gets.
  assert (forall acc,
            exists statuses,
              for_each (FinanceManager.targets (self w))
                (fun t statuses =>
                   st <- Target_status t ;;
                   reached <- Target_is_reached t ;;
                   ret (statuses
                        ++ [(Target.name t, fst st, snd st, reached)]))
                acc w
              = (Returned statuses, w)) as Hloop; [|apply Hloop].
  induction Hts as [|t ts Ht Hts IH]; intros acc; simpl; [eauto|].
  destruct (Target_status_returns t w Hwf Ht) as [st Hst].
  destruct (Target_is_reached_returns t w Hwf Ht) as [r Hr].
  unfold bind at 1. unfold bind at 1. rewrite Hst.
  unfold bind at 1. rewrite Hr. simpl. apply IH.
Qed.

Lemma safe_update (I : World -> Prop) f :
  (forall w, I w -> I (mkWorld (np_random w) (f (self w)) (calls w))) ->
  safe I (update f).
Proof. intros H w Hw. split; [now apply H|simpl; eauto]. Qed.

(** A call that returns without changing anything is safe. *)
Lemma safe_read_only {A} (I : World -> Prop) (m : M A) :
  (forall w, I w -> exists a, m w = (Returned a, w)) -> safe I m.
Proof. intros H w Hw. destruct (H w Hw) as [a ->]. simpl. eauto. Qed.

Lemma step_month_calm : safe calm step_month.
Proof.
  unfold step_month.
  apply safe_bind; [apply events_phase_calm|intros _].
  apply safe_bind; [|intros income_this_month].
  { apply (safe_from _ _ _ (fun w Hw => proj1 (proj1 Hw))
             incomes_phase_returns).
    apply calm_preserved; auto with structure keeps. }
  apply safe_bind; [|intros expense_this_month].
  { apply (safe_from _ _ _ (fun w Hw => proj2 (proj1 Hw))
             expenses_phase_returns).
    apply calm_preserved; auto with structure keeps. }
  apply safe_bind; [|intros dividends_received].
  { apply (safe_from _ _ _ (fun _ _ => I) dividends_phase_returns).
    apply calm_preserved; auto with structure keeps. }
  apply safe_bind; [|intros _].
  { apply (safe_from _ _ _ (fun _ _ => I) revaluation_phase_returns).
    apply calm_preserved; auto with structure keeps. }
  apply safe_bind; [|intros _].
  { apply (safe_from _ _ _ (fun _ _ => I) yearly_phase_returns).
    apply calm_preserved; auto with structure keeps. }
  apply safe_bind; [|intros invested_from_sweep].
  { apply (safe_from _ _ _ (fun w Hw => proj2 (proj2 (proj2 Hw)))
             sweep_phase_returns).
    apply calm_preserved; auto with structure keeps. }
  apply safe_bind; [|intros _].
  { apply (safe_from _ _ _ (fun w Hw => proj1 Hw) increments_returns).
    apply calm_preserved; auto with structure keeps. }
  apply safe_bind; [|intros total].
  { apply safe_read_only. intros w _. apply total_investments_returns. }
  apply safe_bind; [apply safe_gets|intros month].
  apply safe_bind; [apply safe_gets|intros cash].
  apply safe_bind; [|intros statuses].
  { apply safe_read_only. intros w Hw.
    apply targets_status_returns; apply Hw. }
  apply safe_bind; [|intros _].
  { apply safe_update. intros w Hw. now apply (calm_kept w). }
  apply safe_bind; [|intros _; apply safe_ret].
  apply safe_update. intros w Hw. now apply (calm_kept w).
Qed.

Lemma steps_calm n : forall w wn,
  calm w -> steps n w = Some wn -> calm wn.
Proof.
  induction n as [|n IH]; intros w wn Hw Hs; simpl in Hs.
  - inversion Hs; subst. exact Hw.
  - destruct (step_month_calm w Hw) as [Hw1 _].
    destruct (step_month w) as [[s|e] w1]; [|discriminate].
    now apply (IH w1).
Qed.



(** ** Inactive entities *)

Lemma lookup_alter_fixed {X} (f : X -> X) i j (l : list X) v :
  l !! i = Some v -> (j = i -> f v = v) -> alter f j l !! i = Some v.
Proof.
  intros Hl Hf. destruct (decide (j = i)) as [->|Hne].
  - rewrite list_lookup_alter_eq, Hl. simpl. f_equal. now apply Hf.
  - now rewrite list_lookup_alter_ne.
Qed.

Lemma lookup_insert_fixed {X} (y : X) i j (l : list X) v :
  l !! i = Some v -> (j = i -> y = v) -> <[j := y]> l !! i = Some v.
Proof.
  intros Hl Hy. destruct (decide (j = i)) as [->|Hne].
  - rewrite list_lookup_insert_eq by (now apply lookup_lt_Some in Hl).
    f_equal. now apply Hy.
  - now rewrite list_lookup_insert_ne.
Qed.

Lemma preserves_update (I : World -> Prop) f :
  (forall w, I w -> I (mkWorld (np_random w) (f (self w)) (calls w))) ->
  preserves I (update f).
Proof. intros H w Hw. now apply H. Qed.

Lemma preserves_draw {A} (I : World -> Prop)
    (f : NpRandom.RandomState -> A * NpRandom.RandomState) :
  (forall w st, I w -> I (mkWorld st (self w) (calls w))) ->
  preserves I (draw f).
Proof.
  intros H w Hw. unfold draw. destruct (f (np_random w)). now apply H.
Qed.

Lemma preserves_observe_call (I : World -> Prop) i :
  (forall w, I w -> I (mkWorld (np_random w) (self w) (i :: calls w))) ->
  preserves I (observe_call i).
Proof. intros H w Hw. now apply H. Qed.

Create HintDb frozen.

(** Walks through a method; [leaf] deals with the assignments. *)
Ltac preserves_walk leaf :=
  repeat first
    [ apply preserves_ret | apply preserves_raise | apply preserves_gets
    | apply preserves_divide | apply preserves_from_option
    | solve [auto with frozen]
    | apply preserves_bind; [|intros]
    | apply preserves_for_range; intros
    | apply preserves_for_each; intros
    | apply preserves_draw; let w := fresh "w" in
                            let H := fresh "H" in intros w ? H; exact H
    | apply preserves_observe_call; let w := fresh "w" in
                                    let H := fresh "H" in intros w H; exact H
    | apply preserves_update; leaf
    | match goal with
      | |- preserves _ (match ?x with _ => _ end) => destruct x
      | |- preserves _ (let (_, _) := ?x in _) => destruct x
      end ].

Section Frozen.
Context (i : nat).

(** *** An inactive investment *)
Context (v : Investment.t) (Hv : Investment.active v = false).

Ltac investment_leaf :=
  let w := fresh "w" in
  let H := fresh "H" in
  intros w H; unfold investment_at in *; cbn [self]; simpl;
  first
    [ exact H
    | apply lookup_alter_fixed; [exact H|];
      intros _; unfold Investment.add_funds, Investment.yearly_increase;
      now rewrite Hv ].

Lemma is_due_investment {T} `{Recurring T} (o : T) :
  preserves (investment_at i v) (_is_due o).
Proof. unfold _is_due. preserves_walk investment_leaf. Qed.

Lemma first_index_lookup {X} (p : X -> bool) (l : list X) n x :
  first_index p l = Some n -> l !! n = Some x -> p x = true.
Proof.
  intros Hn Hx. destruct (first_index_Some p l n Hn) as (y & Hy & Hp).
  congruence.
Qed.

Lemma call_action_investment a :
  preserves (investment_at i v) (call_action a).
Proof using Hv.
  intros w Hw. unfold call_action, get_object, assign_amount, lookup.
  straight; try exact Hw; unfold investment_at in *; simpl; try exact Hw.
  all: match goal with
       | H : _ <$> ?o = Some _ |- _ =>
           destruct o as [m|] eqn:Hfi; simpl in H; [|discriminate];
           simplify_eq
       end.
  all: apply lookup_alter_fixed; [exact Hw|intros ->].
  all: pose proof (first_index_lookup _ _ _ _ Hfi Hw) as Hp; simpl in Hp.
  all: unfold Investment.is_active in Hp; rewrite Hv, andb_false_r in Hp.
  all: discriminate.
Qed.

#[local] Hint Resolve is_due_investment call_action_investment : frozen.

Lemma events_phase_investment :
  preserves (investment_at i v) events_phase.
Proof using Hv.
  unfold events_phase, Event_apply, item. preserves_walk investment_leaf.
Qed.

Lemma incomes_phase_investment :
  preserves (investment_at i v) incomes_phase.
Proof using Hv.
  unfold incomes_phase, item, add_cash. preserves_walk investment_leaf.
Qed.

Lemma expenses_phase_investment :
  preserves (investment_at i v) expenses_phase.
Proof using Hv.
  unfold expenses_phase, item, sub_cash. preserves_walk investment_leaf.
Qed.

Lemma dividends_phase_investment :
  preserves (investment_at i v) dividends_phase.
Proof using Hv.
  unfold dividends_phase, item, add_cash, update_investment.
  preserves_walk investment_leaf.
Qed.

Lemma revaluation_phase_investment :
  preserves (investment_at i v) revaluation_phase.
Proof using Hv.
  unfold revaluation_phase. apply preserves_bind; [apply preserves_gets|].
  intros n. apply preserves_for_range. intros k [] w Hw.
  unfold investment_at in *. straight; try exact Hw.
  simpl. apply lookup_alter_fixed; [exact Hw|intros ->].
  match goal with
  | H : Investment.revaluation ?x _ = _ |- _ =>
      assert (x = v) as -> by congruence;
      unfold Investment.revaluation in H; rewrite Hv in H
  end.
  congruence.
Qed.

Lemma yearly_phase_investment :
  preserves (investment_at i v) yearly_phase.
Proof using Hv.
  unfold yearly_phase, update_investment. preserves_walk investment_leaf.
Qed.

Lemma sweep_phase_investment :
  preserves (investment_at i v) sweep_phase.
Proof using Hv.
  unfold sweep_phase, sweep_entry, get_investment, update_investment,
    sub_cash.
  preserves_walk investment_leaf.
Qed.

Lemma increments_investment :
  preserves (investment_at i v) _apply_increments_if_cycle_end.
Proof using Hv.
  unfold _apply_increments_if_cycle_end, item.
  preserves_walk investment_leaf.
Qed.
End Frozen.

Lemma keeps_preserves {A} (I : World -> Prop) (m : M A) :
  keeps (fun w => w) m -> preserves I m.
Proof. intros Hm w Hw. now rewrite (Hm w). Qed.

Lemma step_month_investment i v :
  Investment.active v = false -> preserves (investment_at i v) step_month.
Proof.
  intros Hv. unfold step_month.
  pose proof (events_phase_investment i v Hv).
  pose proof (incomes_phase_investment i v Hv).
  pose proof (expenses_phase_investment i v Hv).
  pose proof (dividends_phase_investment i v Hv).
  pose proof (revaluation_phase_investment i v Hv).
  pose proof (yearly_phase_investment i v Hv).
  pose proof (sweep_phase_investment i v Hv).
  pose proof (increments_investment i v Hv).
  pose proof (keeps_preserves (investment_at i v) _
                (keeps_total_investments _)).
  pose proof (keeps_preserves (investment_at i v) _
                (keeps_targets_status _)).
  repeat first
    [ assumption | apply preserves_ret | apply preserves_gets
    | apply preserves_bind; [|intros]
    | apply preserves_update; let w := fresh "w" in
                              let H := fresh "H" in intros w H; exact H ].
Qed.

Section FrozenFlow.
Context (i : nat).

(** *** An inactive income *)
Context (x : Income.t) (Hx : Income.active x = false).

Ltac income_leaf :=
  let w := fresh "w" in
  let H := fresh "H" in
  intros w H; unfold income_at in *; cbn [self]; simpl; exact H.

Lemma is_due_income {T} `{Recurring T} (o : T) :
  preserves (income_at i x) (_is_due o).
Proof. unfold _is_due. preserves_walk income_leaf. Qed.

Lemma call_action_income a : preserves (income_at i x) (call_action a).
Proof using Hx.
  intros w Hw. unfold call_action, get_object, assign_amount, lookup.
  straight; try exact Hw; unfold income_at in *; simpl; try exact Hw.
  all: match goal with
       | H : _ <$> ?o = Some _ |- _ =>
           destruct o as [m|] eqn:Hfi; simpl in H; [|discriminate];
           simplify_eq
       end.
  all: apply lookup_alter_fixed; [exact Hw|intros ->].
  all: pose proof (first_index_lookup _ _ _ _ Hfi Hw) as Hp; simpl in Hp.
  all: unfold Income.is_active in Hp; rewrite Hx, andb_false_r in Hp.
  all: discriminate.
Qed.

#[local] Hint Resolve is_due_income call_action_income : frozen.

Lemma increments_income :
  preserves (income_at i x) _apply_increments_if_cycle_end.
Proof using Hx.
  unfold _apply_increments_if_cycle_end.
  apply preserves_bind; [apply preserves_gets|intros n].
  apply preserves_bind;
    [|intros _; apply preserves_bind; [apply preserves_gets|intros m]].
  - apply preserves_for_range. intros k [] w Hw. unfold _is_due.
    unfold income_at in *. straight; try exact Hw.
    simpl. apply lookup_insert_fixed; [exact Hw|intros ->].
    match goal with
    | |- Income.apply_increment ?y = _ => assert (y = x) as -> by congruence
    end.
    unfold Income.apply_increment. now rewrite Hx, andb_false_r.
  - unfold item. preserves_walk income_leaf.
Qed.

Lemma step_month_income : preserves (income_at i x) step_month.
Proof using Hx.
  pose proof increments_income.
  pose proof (keeps_preserves (income_at i x) _ (keeps_total_investments _)).
  pose proof (keeps_preserves (income_at i x) _ (keeps_targets_status _)).
  unfold step_month, events_phase, Event_apply, incomes_phase,
    expenses_phase, dividends_phase, revaluation_phase, yearly_phase,
    sweep_phase, sweep_entry, get_investment, item, add_cash, sub_cash,
    update_investment.
  preserves_walk ltac:(first [assumption | income_leaf]).
Qed.
End FrozenFlow.

Section FrozenCharge.
Context (i : nat).

(** *** An inactive expense *)
Context (x : Expense.t) (Hx : Expense.active x = false).

Ltac expense_leaf :=
  let w := fresh "w" in
  let H := fresh "H" in
  intros w H; unfold expense_at in *; cbn [self]; simpl; exact H.

Lemma is_due_expense {T} `{Recurring T} (o : T) :
  preserves (expense_at i x) (_is_due o).
Proof. unfold _is_due. preserves_walk expense_leaf. Qed.

Lemma call_action_expense a : preserves (expense_at i x) (call_action a).
Proof using Hx.
  intros w Hw. unfold call_action, get_object, assign_amount, lookup.
  straight; try exact Hw; unfold expense_at in *; simpl; try exact Hw.
  all: match goal with
       | H : _ <$> ?o = Some _ |- _ =>
           destruct o as [m|] eqn:Hfi; simpl in H; [|discriminate];
           simplify_eq
       end.
  all: apply lookup_alter_fixed; [exact Hw|intros ->].
  all: pose proof (first_index_lookup _ _ _ _ Hfi Hw) as Hp; simpl in Hp.
  all: unfold Expense.is_active in Hp; rewrite Hx, andb_false_r in Hp.
  all: discriminate.
Qed.

#[local] Hint Resolve is_due_expense call_action_expense : frozen.

Lemma increments_expense :
  preserves (expense_at i x) _apply_increments_if_cycle_end.
Proof using Hx.
  unfold _apply_increments_if_cycle_end.
  apply preserves_bind; [apply preserves_gets|intros n].
  apply preserves_bind;
    [|intros _; apply preserves_bind; [apply preserves_gets|intros m]].
  - unfold item. preserves_walk expense_leaf.
  - apply preserves_for_range. intros k [] w Hw. unfold _is_due.
    unfold expense_at in *. straight; try exact Hw.
    simpl. apply lookup_insert_fixed; [exact Hw|intros ->].
    match goal with
    | |- Expense.apply_increment ?y = _ => assert (y = x) as -> by congruence
    end.
    unfold Expense.apply_increment. now rewrite Hx, andb_false_r.
Qed.

Lemma step_month_expense : preserves (expense_at i x) step_month.
Proof using Hx.
  pose proof increments_expense.
  pose proof (keeps_preserves (expense_at i x) _ (keeps_total_investments _)).
  pose proof (keeps_preserves (expense_at i x) _ (keeps_targets_status _)).
  unfold step_month, events_phase, Event_apply, incomes_phase,
    expenses_phase, dividends_phase, revaluation_phase, yearly_phase,
    sweep_phase, sweep_entry, get_investment, item, add_cash, sub_cash,
    update_investment.
  preserves_walk ltac:(first [assumption | expense_leaf]).
Qed.
End FrozenCharge.

(** X5: an income, expense or investment that has been deactivated
    (its [delete()] was called, so [active] is [False]) is never changed
    again by the engine: whatever monthly steps follow, returning or
    raising, and whatever the caller does to [month] between them, the
    object is found unchanged at its position.  No event action, increment,
    dividend, shock, yearly growth or sweep reaches it. *)
Theorem inactive_entities_are_frozen (w w' : World) :
  later w w' ->
  (forall i x, Income.active x = false ->
     income_at i x w -> income_at i x w')
  /\ (forall i x, Expense.active x = false ->
        expense_at i x w -> expense_at i x w')
  /\ (forall i v, Investment.active v = false ->
        investment_at i v w -> investment_at i v w').
Proof.
  induction 1 as [w|w w' _ (IHi & IHe & IHv)|w w' m _ (IHi & IHe & IHv)].
  - auto.
  - split; [|split]; intros i x Hx Hw.
    + now apply step_month_income, IHi.
    + now apply step_month_expense, IHe.
    + now apply step_month_investment, IHv.
  - split; [|split]; intros i x Hx Hw.
    + now apply (IHi i x).
    + now apply (IHe i x).
    + now apply (IHv i x).
Qed.

Lemma inactive_entities_are_frozen_witness :
  let w := two_funds false in
  let w' := snd (step_month (snd (step_month w))) in
  later w w'
  /\ investment_at 1 (fund "B" 500 false) w
  /\ investment_at 1 (fund "B" 500 false) w'.
Proof.
  intros w w'.
  assert (later w w') as Hl by (do 2 apply later_step; apply later_now).
  split; [exact Hl|]. split; [reflexivity|].
  exact (proj2 (proj2 (inactive_entities_are_frozen w w' Hl))
           1%nat (fund "B" 500 false) eq_refl eq_refl).
Defined.

(** ** The history *)

(** An exception raised in a sequence whose first part keeps [obs]
    leaves [obs] as it was, if the second part does. *)
Lemma bind_raised_keeps {X A B} (obs : World -> X) (m : M A) (f : A -> M B) :
  keeps obs m ->
  (forall a w e w', f a w = (Raised e, w') -> obs w' = obs w) ->
  forall w e w', bind m f w = (Raised e, w') -> obs w' = obs w.
Proof.
  intros Hm Hf w e w' E. unfold bind in E. specialize (Hm w).
  destruct (m w) as [[a|e0] w1] eqn:Em; simpl in Hm.
  - rewrite <- Hm. now apply (Hf a w1 e).
  - inversion E; subst. exact Hm.
Qed.

(** A step that raises has not advanced the month, and has recorded
    nothing. *)
Lemma step_month_raised w e w' :
  step_month w = (Raised e, w') -> clock w' = clock w.
Proof.
  revert w e w'. unfold step_month.
  repeat (apply bind_raised_keeps;
          [first [solve [auto with keeps] | solve [keeps_walk]]|intros ?]).
  intros w e w' E. discriminate E.
Qed.

Lemma months_from_snoc n : forall start,
  months_from start (n + 1) = months_from start n ++ [start + Z.of_nat n].
Proof.
  induction n as [|n IH]; intros start; simpl.
  - now rewrite Z.add_0_r.
  - rewrite IH. do 3 f_equal. lia.
Qed.

(** What a call of [step_month] does to the month and the history. *)
Lemma step_month_clock w :
  let w' := snd (step_month w) in
  (FinanceManager.month (self w') = FinanceManager.month (self w)
   /\ FinanceManager.history (self w') = FinanceManager.history (self w))
  \/ exists s,
       Snapshot.month s = FinanceManager.month (self w)
       /\ FinanceManager.month (self w') = FinanceManager.month (self w) + 1
       /\ FinanceManager.history (self w')
          = FinanceManager.history (self w) ++ [s].
Proof.
  destruct (step_month w) as [[s|e] w'] eqn:E; simpl.
  - right. exists s. now apply step_month_returned.
  - left. apply step_month_raised in E. unfold clock in E.
    now inversion E.
Qed.

Lemma after_month w w' :
  after w w' -> FinanceManager.month (self w) <= FinanceManager.month (self w').
Proof.
  induction 1 as [w|w w1 _ IH]; [lia|].
  destruct (step_month_clock w1) as [[Hm _]|(s & _ & Hm & _)]; lia.
Qed.



(** ** Events whose month has passed *)

(** X7: an event is not applied in retrospect.  If a pending event's
    [trigger_month] is already behind the engine's month (it was added too
    late, or the engine was started after it), no later step calls its
    action, and it stays pending for ever. *)
Theorem past_events_never_fire (w w' : World) (i : nat) (ev : Event.t) :
  after w w' ->
  FinanceManager.events (self w) !! i = Some ev ->
  Event.trigger_month ev < FinanceManager.month (self w) ->
  FinanceManager.events (self w') !! i = Some ev
  /\ invocations i w' = invocations i w.
Proof.
  intros Ha Hev Hlt. change (untouched i ev w w').
  induction Ha as [w|w w1 Ha IH].
  - now split.
  - specialize (IH Hev Hlt). pose proof (after_month _ _ Ha) as Hm.
    destruct (step_month_effect w1 i ev (proj1 IH)) as [Hidle _].
    apply (untouched_then (P:=untouched) _ _ _ w1); auto.
    apply Hidle. unfold triggered.
    replace (FinanceManager.month (self w1) =? Event.trigger_month ev)
      with false by (symmetry; apply Z.eqb_neq; lia).
    reflexivity.
Qed.

Lemma past_events_never_fire_witness :
  let w := rewind 5 promoted in
  let w' := snd (step_month w) in
  after w w'
  /\ FinanceManager.events (self w) !! 0%nat = Some raise_event
  /\ Event.trigger_month raise_event < FinanceManager.month (self w)
  /\ FinanceManager.events (self w') !! 0%nat = Some raise_event
  /\ invocations 0 w' = invocations 0 w.
Proof.
  intros w w'.
  assert (after w w') as Ha by (apply after_step, after_now).
  assert (Event.trigger_month raise_event < FinanceManager.month (self w))
    as Hlt by (simpl; lia).
  split; [exact Ha|]. split; [reflexivity|]. split; [exact Hlt|].
  exact (past_events_never_fire w w' 0 raise_event Ha eq_refl Hlt).
Defined.

(** ** The status of the targets *)

Lemma val_class (b : bool) x : Num.val ((if b then Np else Py) x) = x.
Proof. now destruct b. Qed.

Lemma div_Some x y r :
  Num.div x y = Some r -> r = Num.lift2 Num.fdiv x y.
Proof. unfold Num.div. case_match; congruence. Qed.

(** The progress is at most 100, and it is a number. *)
Lemma progress_le_hundred p :
  Num.leb (Num.min hundred p) hundred = true.
Proof.
  unfold Num.min. destruct (Num.ltb p hundred) eqn:E.
  - unfold Num.leb, Num.fle. unfold Num.ltb in E. now rewrite E.
  - reflexivity.
Qed.

(** The progress of a positive goal that is reached is 100. *)
Lemma full_progress cur goal ratio :
  Num.gtb goal Num.zero = true ->
  Num.geb cur goal = true ->
  Num.div cur goal = Some ratio ->
  Num.min hundred (Num.mul ratio hundred) = hundred.
Proof.
  intros Hpos Hge Hdiv. apply div_Some in Hdiv. subst ratio.
  unfold Num.min, Num.ltb, Num.mul, Num.lift2. rewrite !val_class.
  unfold Num.gtb in Hpos. unfold Num.geb, Num.fle in Hge.
  cut (Num.flt (Num.fmul (Num.fdiv (Num.val cur) (Num.val goal))
                  (Num.val hundred)) (Num.val hundred) = false).
  { intros ->. reflexivity. }
  destruct (Num.val goal) as [y| | |]; simpl in Hpos; try discriminate;
    destruct (Num.val cur) as [x| | |]; simpl in Hge; try discriminate;
    try reflexivity.
  - change (inject_Z 0) with 0%Q in Hpos. apply Qltb_lt in Hpos.
    assert (y <= x)%Q as Hxy.
    { apply orb_true_iff in Hge. destruct Hge as [H|H].
      - apply Qltb_lt in H. lra.
      - apply Qeq_bool_iff in H. lra. }
    simpl.
    assert (Qeq_bool y 0 = false) as ->.
    { apply not_true_iff_false. rewrite Qeq_bool_iff. lra. }
    simpl. apply Qltb_ge. rewrite !Qred_correct.
    assert (1 <= x / y)%Q as H1.
    { apply Qle_shift_div_l; lra. }
    change (inject_Z 100) with 100%Q. lra.
  - change (inject_Z 0) with 0%Q in Hpos. apply Qltb_lt in Hpos.
    simpl.
    assert (Num.Qltb y 0 = false) as -> by (apply Qltb_ge; lra).
    reflexivity.
Qed.

Lemma read_only_call {A} (m : M A) w r w' :
  keeps (fun w => w) m -> m w = (r, w') -> w' = w.
Proof. intros K E. specialize (K w). now rewrite E in K. Qed.

(** What [status] returns, when it does. *)
Lemma Target_status_inv t w cur prog w' :
  Target_status t w = (Returned (cur, prog), w') ->
  w' = w
  /\ call_metric (Target.check_function t) w = (Returned cur, w)
  /\ exists ratio,
       Num.div cur (Target.goal_value t) = Some ratio
       /\ prog = Num.min hundred (Num.mul ratio hundred).
Proof.
  unfold Target_status. intros E.
  apply bind_inv in E. destruct E as (c & w1 & E1 & E).
  pose proof (read_only_call _ _ _ _ (keeps_call_metric _ _) E1). subst w1.
  apply bind_inv in E. destruct E as (ratio & w2 & E2 & E).
  unfold divide in E2. destruct (Num.div c (Target.goal_value t)) eqn:D;
    [|discriminate].
  inversion E2; subst. inversion E; subst. eauto.
Qed.

(** The body of the loop of [_targets_status]. *)
Lemma targets_status_body t statuses w acc w' :
  (st <- Target_status t ;;
   reached <- Target_is_reached t ;;
   ret (statuses ++ [(Target.name t, fst st, snd st, reached)])) w
  = (Returned acc, w') ->
  w' = w
  /\ exists cur prog,
       acc = statuses
             ++ [(Target.name t, cur, prog,
                  Num.geb cur (Target.goal_value t))]
       /\ call_metric (Target.check_function t) w = (Returned cur, w)
       /\ Num.leb prog hundred = true
       /\ (Num.gtb (Target.goal_value t) Num.zero = true ->
           Num.geb cur (Target.goal_value t) = true -> prog = hundred).
Proof.
  intros E.
  apply bind_inv in E. destruct E as ([cur prog] & w1 & E1 & E).
  apply Target_status_inv in E1. destruct E1 as (-> & Hc & ratio & Hd & Hp).
  apply bind_inv in E. destruct E as (reached & w2 & E2 & E).
  unfold Target_is_reached in E2.
  apply bind_inv in E2. destruct E2 as ([cur' prog'] & w3 & E3 & E2).
  apply Target_status_inv in E3. destruct E3 as (-> & Hc' & _).
  assert (cur' = cur) as -> by congruence.
  inversion E2; subst. inversion E; subst. simpl.
  split; [reflexivity|]. exists cur, (Num.min hundred (Num.mul ratio hundred)).
  split; [reflexivity|]. split; [exact Hc|].
  split; [apply progress_le_hundred|].
  intros Hpos Hge. now apply (full_progress cur (Target.goal_value t)).
Qed.

Lemma targets_status_loop ts : forall statuses w sts w',
  for_each ts (fun t statuses =>
    st <- Target_status t ;;
    reached <- Target_is_reached t ;;
    ret (statuses ++ [(Target.name t, fst st, snd st, reached)]))
    statuses w = (Returned sts, w') ->
  w' = w
  /\ exists new,
       sts = statuses ++ new
       /\ length new = length ts
       /\ forall k t, ts !! k = Some t ->
            exists cur prog,
              new !! k = Some (Target.name t, cur, prog,
                               Num.geb cur (Target.goal_value t))
              /\ call_metric (Target.check_function t) w = (Returned cur, w)
              /\ Num.leb prog hundred = true
              /\ (Num.gtb (Target.goal_value t) Num.zero = true ->
                  Num.geb cur (Target.goal_value t) = true ->
                  prog = hundred).
Proof.
  induction ts as [|t ts IH]; intros statuses w sts w' E; simpl in E.
  - inversion E; subst. split; [reflexivity|]. exists [].
    rewrite app_nil_r. split; [reflexivity|]. split; [reflexivity|].
    intros k t Hk. discriminate.
  - apply bind_inv in E. destruct E as (acc & w1 & E1 & E).
    apply targets_status_body in E1.
    destruct E1 as (-> & cur & prog & -> & Hc & Hle & Hfull).
    apply IH in E. destruct E as (-> & new & -> & Hlen & Hnew).
    split; [reflexivity|].
    exists ((Target.name t, cur, prog, Num.geb cur (Target.goal_value t))
            :: new).
    split; [now rewrite <- app_assoc|]. split; [simpl; now rewrite Hlen|].
    intros [|k] t' Hk; simpl in Hk.
    + inversion Hk; subst t'. exists cur, prog. auto.
    + now apply Hnew.
Qed.

(** X8: when [_targets_status] returns, it has changed nothing, and
    its result has one entry per target, in the targets' order: the
    target's name, the value [current] of its metric on the engine, a
    progress that is never above 100 (nor NaN), and [current >= goal].  For
    a positive goal, a target that is reported as reached has progress
    exactly 100. *)
Theorem targets_status_entries (w w' : World) (sts : list TargetStatus) :
  _targets_status w = (Returned sts, w') ->
  w' = w
  /\ length sts = length (FinanceManager.targets (self w))
  /\ forall k t,
       FinanceManager.targets (self w) !! k = Some t ->
       exists cur prog,
         sts !! k = Some (Target.name t, cur, prog,
                          Num.geb cur (Target.goal_value t))
         /\ call_metric (Target.check_function t) w = (Returned cur, w)
         /\ Num.leb prog hundred = true
         /\ (Num.gtb (Target.goal_value t) Num.zero = true ->
             Num.geb cur (Target.goal_value t) = true ->
             prog = hundred).
Proof.
  unfold _targets_status. intros E.
  apply bind_inv in E. destruct E as (ts & w1 & E1 & E).
  inversion E1; subst. apply targets_status_loop in E.
  destruct E as (-> & new & -> & Hlen & Hnew). simpl.
  auto.
Qed.

Lemma targets_status_entries_witness :
  _targets_status saving
  = (Returned [("Nest egg", Num.of_Z 1000, hundred, true)], saving)
  /\ exists cur prog,
       [("Nest egg", Num.of_Z 1000, hundred, true)] !! 0%nat
       = Some (Target.name nest_egg, cur, prog,
               Num.geb cur (Target.goal_value nest_egg))
       /\ call_metric (Target.check_function nest_egg) saving
          = (Returned cur, saving)
       /\ Num.leb prog hundred = true
       /\ (Num.gtb (Target.goal_value nest_egg) Num.zero = true ->
           Num.geb cur (Target.goal_value nest_egg) = true ->
           prog = hundred).
Proof.
  assert (_targets_status saving
          = (Returned [("Nest egg", Num.of_Z 1000, hundred, true)], saving))
    as E by (vm_compute; reflexivity).
  split; [exact E|].
  exact (proj2 (proj2 (targets_status_entries saving saving _ E))
           0%nat nest_egg eq_refl).
Defined.

(** ** Runs, one after the other *)

Lemma for_range_split {A} (a b : nat) (body : nat -> A -> M A) :
  forall start acc w,
    for_range (a + b) start body acc w
    = bind (for_range a start body acc)
        (for_range b (start + a) body) w.
Proof.
  induction a as [|a IH]; intros start acc w; simpl.
  - now rewrite Nat.add_0_r.
  - unfold bind. destruct (body start acc w) as [[acc'|e] w1];
      [|reflexivity].
    rewrite IH. unfold bind.
    now replace (S start + a)%nat with (start + S a)%nat by lia.
Qed.

(** The loop of [run] started with some results already collected. *)
Lemma run_loop_prefix n : forall start start' results w,
  for_range n start
    (fun _ results => snapshot <- step_month ;; ret (results ++ [snapshot]))
    results w
  = match for_range n start'
            (fun _ results =>
               snapshot <- step_month ;; ret (results ++ [snapshot]))
            [] w with
    | (Returned snaps, w') => (Returned (results ++ snaps), w')
    | (Raised e, w') => (Raised e, w')
    end.
Proof.
  induction n as [|n IH]; intros start start' results w; simpl.
  - now rewrite app_nil_r.
  - unfold bind at 1 2 4 5.
    destruct (step_month w) as [[s|e] w1]; [|reflexivity].
    cbn [ret fst snd]. rewrite (IH (S start) (S start') (results ++ [s])).
    rewrite (IH (S start') (S start') [s]).
    destruct (for_range n (S start') _ [] w1) as [[snaps|e] w2];
      [|reflexivity].
    now rewrite <- app_assoc.
Qed.

(** X9: running [a] months and then [b] months is running [a + b]
    months: the snapshots of [run(a + b)] are those of [run(a)] followed by
    those of a [run(b)] started where [run(a)] stopped, and the engine ends
    in the same state; if one of the two runs raises, so does the long one,
    with the same exception and the same state. *)
Theorem run_composes (a b : nat) (w : World) :
  run (Z.of_nat (a + b)) w
  = match run (Z.of_nat a) w with
    | (Returned first, w1) =>
        match run (Z.of_nat b) w1 with
        | (Returned second, w2) => (Returned (first ++ second), w2)
        | (Raised e, w2) => (Raised e, w2)
        end
    | (Raised e, w1) => (Raised e, w1)
    end.
Proof.
  unfold run. rewrite !Nat2Z.id. rewrite for_range_split. unfold bind.
  destruct (for_range a 0 _ [] w) as [[first|e] w1]; [|reflexivity].
  apply run_loop_prefix.
Qed.

(** ** Names *)

Lemma first_index_app {T} (p : T -> bool) (l : list T) (x : T) :
  first_index p (l ++ [x])
  = match first_index p l with
    | Some i => Some i
    | None => if p x then Some (length l) else None
    end.
Proof.
  induction l as [|y l IH]; simpl.
  - now destruct (p x).
  - destruct (p y); [reflexivity|]. rewrite IH.
    destruct (first_index p l); simpl; [reflexivity|]. now destruct (p x).
Qed.

Lemma first_index_lt {T} (p : T -> bool) (l : list T) i :
  first_index p l = Some i -> (i < length l)%nat.
Proof.
  intros H. destruct (first_index_Some p l i H) as (x & Hx & _).
  now apply lookup_lt_Some in Hx.
Qed.

Lemma delete_last {T} (l : list T) (x : T) : delete (length l) (l ++ [x]) = l.
Proof. induction l as [|y l IH]; simpl; [reflexivity|]. now rewrite IH. Qed.

Lemma delete_app_lt {T} (l : list T) (x : T) i :
  (i < length l)%nat -> delete i (l ++ [x]) = delete i l ++ [x].
Proof.
  revert i. induction l as [|y l IH]; intros i Hi; simpl in *; [lia|].
  destruct i as [|i]; [reflexivity|]. simpl. rewrite IH; [reflexivity|lia].
Qed.

Lemma set_events_same s :
  Set_.events (FinanceManager.events s) s = s.
Proof. now destruct s. Qed.

(** X10: [delete_object] removes the first event with the name, which
    need not be the one added last.  Adding an event and then deleting an
    event of its name (the type given in any case of letters) returns
    [True]; if the name was new, the engine is exactly as before; if an
    event of that name was already there, the old one is removed and the
    new one stays. *)
Theorem add_then_delete_event (ev : Event.t) (ty : string) (w : World) :
  mapping (lower ty) = Some event ->
  let events := FinanceManager.events (self w) in
  let found := first_index (fun o => String.eqb (Event.name o) (Event.name ev))
                 events in
  (add_event ev ;;; delete_object ty (Event.name ev)) w
  = (Returned true,
     mkWorld (np_random w)
       (Set_.events
          (match found with
           | Some i => delete i events ++ [ev]
           | None => events
           end) (self w))
       (calls w))
  /\ (found = None ->
      (add_event ev ;;; delete_object ty (Event.name ev)) w
      = (Returned true, w)).
Proof.
  intros Hk events found.
  assert ((add_event ev ;;; delete_object ty (Event.name ev)) w
          = (Returned true,
             mkWorld (np_random w)
               (Set_.events
                  (match found with
                   | Some i => delete i events ++ [ev]
                   | None => events
                   end) (self w))
               (calls w))) as E.
  { unfold add_event, bind at 1, update. cbn [fst snd].
    match goal with
    | |- delete_object _ _ ?v = _ => set (w1 := v)
    end.
    assert (position event (Event.name ev) (self w1)
            = Some (match found with
                    | Some i => i
                    | None => length events
                    end)) as Hp.
    { unfold position, w1. cbn [self]. destruct (self w); simpl.
      rewrite first_index_app. subst found events. simpl.
      destruct (first_index _ _); [reflexivity|].
      now rewrite String.eqb_refl. }
    rewrite (delete_object_popped ty _ event _ w1 Hk eq_refl Hp).
    f_equal. unfold w1. cbn [np_random self calls]. f_equal.
    unfold pop. subst found events. destruct (self w) as [????? evs ?????].
    simpl. destruct (first_index _ evs) as [i|] eqn:Hi.
    - rewrite delete_app_lt; [reflexivity|].
      now apply first_index_lt in Hi.
    - now rewrite delete_last. }
  split; [exact E|].
  intros Hnone. rewrite E, Hnone. subst events.
  rewrite set_events_same. now destruct w.
Qed.

Lemma add_then_delete_event_witness :
  mapping (lower "Event") = Some event
  /\ (add_event raise_event ;;; delete_object "Event" "Raise") salaried
     = (Returned true, salaried)
  /\ FinanceManager.events
       (self (snd ((add_event raise_event ;;; delete_object "Event" "Raise")
                     promoted)))
     = [raise_event].
Proof.
  split; [reflexivity|]. split.
  - exact (proj2 (add_then_delete_event raise_event "Event" salaried eq_refl)
             eq_refl).
  - exact (f_equal (fun r => FinanceManager.events (self (snd r)))
             (proj1 (add_then_delete_event raise_event "Event" promoted
                       eq_refl))).
Defined.

(** X11: names are not unique, and a lookup stops at the first active
    match.  After [add_income_to_fm] with a valid frequency,
    [get_object("income", name)] finds an active income of that name; it is
    the new income exactly when the engine had no active income of that
    name before, otherwise it is the old one and the new one cannot be
    reached by name (hence by no event action). *)
Theorem added_income_is_found (name : string) (amount : num) (frequency : Z)
    (inc : bool) (increment_rate : num) (w : World) :
  1 <= frequency ->
  exists i x w',
    (add_income_to_fm name amount frequency inc increment_rate ;;;
     get_object "income" name) w
    = (Returned (Some (IncomeAt i)), w')
    /\ FinanceManager.incomes (self w')
       = FinanceManager.incomes (self w)
         ++ [Income.init name amount frequency inc increment_rate]
    /\ FinanceManager.incomes (self w') !! i = Some x
    /\ Income.name x = name
    /\ Income.is_active x = true
    /\ (i = length (FinanceManager.incomes (self w))
        <-> get_income name w = (Returned None, w)).
Proof.
  intros Hf.
  set (new := Income.init name amount frequency inc increment_rate).
  set (p := fun o : Income.t =>
              String.eqb (Income.name o) name && Income.is_active o).
  set (incs := FinanceManager.incomes (self w)).
  set (w' := mkWorld (np_random w) (Set_.incomes (incs ++ [new]) (self w))
               (calls w)).
  assert (p new = true) as Hnew.
  { unfold p, new. simpl. now rewrite String.eqb_refl. }
  assert ((add_income_to_fm name amount frequency inc increment_rate ;;;
           get_object "income" name) w
          = (Returned (IncomeAt <$> first_index p (incs ++ [new])), w'))
    as E.
  { unfold add_income_to_fm, add_income, _validate_recurrence.
    change (Income.recurrence (Income.init name amount frequency inc
                                 increment_rate)) with frequency.
    assert ((frequency <? 1) = false) as -> by (apply Z.ltb_ge; lia).
    reflexivity. }
  rewrite first_index_app in E.
  assert (FinanceManager.incomes (self w') = incs ++ [new]) as Hw'
    by reflexivity.
  unfold get_income, gets. fold p. fold incs.
  destruct (first_index p incs) as [j|] eqn:Hj.
  - destruct (first_index_Some p incs j Hj) as (x & Hx & Hp).
    exists j, x, w'. split; [exact E|]. split; [exact Hw'|].
    unfold p in Hp. apply andb_true_iff in Hp. destruct Hp as [Hn Ha].
    apply String.eqb_eq in Hn.
    split; [rewrite Hw'; now apply lookup_app_l_Some|].
    split; [exact Hn|]. split; [exact Ha|].
    split; [|discriminate].
    intros ->. apply lookup_lt_Some in Hx. lia.
  - rewrite Hnew in E. exists (length incs), new, w'.
    split; [exact E|]. split; [exact Hw'|].
    split; [rewrite Hw'; apply list_lookup_middle; reflexivity|].
    split; [reflexivity|]. split; [reflexivity|]. now split.
Qed.

Lemma added_income_is_found_witness :
  1 <= 12
  /\ exists i x w',
       (add_income_to_fm "Salary" (Num.of_Z 900) 12 false Num.zero ;;;
        get_object "income" "Salary") salaried
       = (Returned (Some (IncomeAt i)), w')
       /\ FinanceManager.incomes (self w')
          = FinanceManager.incomes (self salaried)
            ++ [Income.init "Salary" (Num.of_Z 900) 12 false Num.zero]
       /\ FinanceManager.incomes (self w') !! i = Some x
       /\ Income.name x = "Salary"
       /\ Income.is_active x = true
       /\ (i = length (FinanceManager.incomes (self salaried))
           <-> get_income "Salary" salaried = (Returned None, salaried)).
Proof.
  assert (1 <= 12) as H by lia.
  split; [exact H|].
  exact (added_income_is_found "Salary" (Num.of_Z 900) 12 false Num.zero
           salaried H).
Defined.

(** ** Without volatility *)

Lemma engine_only_ret {A} (a : A) : engine_only (ret a).
Proof. intros w1 w2 E. now split. Qed.

Lemma engine_only_raise {A} e : engine_only (@raise A e).
Proof. intros w1 w2 E. now split. Qed.

Lemma engine_only_gets {A} (f : FinanceManager.t -> A) :
  engine_only (gets f).
Proof. intros w1 w2 E. unfold gets. simpl. now rewrite E. Qed.

Lemma engine_only_update f : engine_only (update f).
Proof. intros w1 w2 E. unfold update. simpl. now rewrite E. Qed.

Lemma engine_only_observe_call i : engine_only (observe_call i).
Proof. intros w1 w2 E. now split. Qed.

Lemma engine_only_bind {A B} (m : M A) (f : A -> M B) :
  engine_only m -> (forall a, engine_only (f a)) -> engine_only (bind m f).
Proof.
  intros Hm Hf w1 w2 E. unfold bind. destruct (Hm w1 w2 E) as [Hr Hs].
  destruct (m w1) as [[a1|e1] v1], (m w2) as [[a2|e2] v2]; simpl in *;
    try discriminate.
  - injection Hr as ->. now apply Hf.
  - injection Hr as ->. now split.
Qed.

Lemma engine_only_for_range {A} n start (body : nat -> A -> M A) acc :
  (forall i a, engine_only (body i a)) ->
  engine_only (for_range n start body acc).
Proof.
  intros Hb. revert start acc.
  induction n as [|n IH]; intros start acc; simpl.
  - apply engine_only_ret.
  - apply engine_only_bind; auto.
Qed.

Lemma engine_only_for_each {Y A} (xs : list Y) (body : Y -> A -> M A) acc :
  (forall x a, engine_only (body x a)) ->
  engine_only (for_each xs body acc).
Proof.
  intros Hb. revert acc.
  induction xs as [|x xs IH]; intros acc; simpl.
  - apply engine_only_ret.
  - apply engine_only_bind; auto.
Qed.

Lemma engine_only_divide x y : engine_only (divide x y).
Proof.
  unfold divide.
  destruct (Num.div x y); [apply engine_only_ret|apply engine_only_raise].
Qed.

Lemma engine_only_from_option {A} (o : option A) e :
  engine_only (from_option o e).
Proof. destruct o; [apply engine_only_ret|apply engine_only_raise]. Qed.

(** Walks through a method that does not draw. *)
Ltac engine_walk :=
  repeat first
    [ apply engine_only_ret | apply engine_only_raise
    | apply engine_only_gets | apply engine_only_divide
    | apply engine_only_from_option | apply engine_only_update
    | apply engine_only_observe_call
    | apply engine_only_bind; [|intros]
    | apply engine_only_for_range; intros
    | apply engine_only_for_each; intros
    | match goal with
      | |- engine_only (match ?x with _ => _ end) => destruct x
      | |- engine_only (let (_, _) := ?x in _) => destruct x
      | |- engine_only (_is_due _) => unfold _is_due
      | |- engine_only (call_action _) => unfold call_action
      | |- engine_only (get_object _ _) => unfold get_object
      | |- engine_only (assign_amount _ _) => unfold assign_amount
      | |- engine_only (call_metric ?f) => destruct f; simpl
      end ].

(** The volatilities are part of the structure, and no method changes
    the sequence of the samples. *)
Lemma quiet_kept w w' :
  structure w' = structure w ->
  NpRandom.samples (np_random w') = NpRandom.samples (np_random w) ->
  quiet w -> quiet w'.
Proof.
  intros Es En [Hv Hn]. split; [|now rewrite En].
  unfold structure in Es. injection Es as _ _ Ei _ _ _ _ _.
  revert Hv.
  apply (Forall_same_image (Investment.set_amount Num.zero) _
           (fun v => Num.leb (Investment.volatility v) Num.zero = true));
    [|exact Ei].
  intros v. reflexivity.
Qed.

Lemma quiet_preserved {A} (m : M A) :
  keeps structure m ->
  keeps (fun w => NpRandom.samples (np_random w)) m ->
  preserves quiet m.
Proof.
  intros Hs Hn w Hw.
  apply (quiet_kept w); [apply Hs|apply (Hn w)|exact Hw].
Qed.

Lemma unseeded_of {A} (m : M A) :
  engine_only m -> preserves quiet m -> unseeded m.
Proof.
  intros He Hp w1 w2 H1 H2 E. destruct (He w1 w2 E). auto.
Qed.

Lemma unseeded_bind {A B} (m : M A) (f : A -> M B) :
  unseeded m -> (forall a, unseeded (f a)) -> unseeded (bind m f).
Proof.
  intros Hm Hf w1 w2 H1 H2 E. unfold bind.
  destruct (Hm w1 w2 H1 H2 E) as (Hr & Hs & Hq1 & Hq2).
  destruct (m w1) as [[a1|e1] v1], (m w2) as [[a2|e2] v2]; simpl in *;
    try discriminate.
  - injection Hr as ->. now apply Hf.
  - injection Hr as ->. auto.
Qed.

Lemma unseeded_for_range {A} n start (body : nat -> A -> M A) acc :
  (forall i a, unseeded (body i a)) -> unseeded (for_range n start body acc).
Proof.
  intros Hb. revert start acc.
  induction n as [|n IH]; intros start acc; simpl.
  - apply unseeded_of; [apply engine_only_ret|apply preserves_ret].
  - apply unseeded_bind; auto.
Qed.

Lemma revaluation_samples v :
  keeps (fun w => NpRandom.samples (np_random w))
    (draw (Investment.revaluation v)).
Proof.
  intros w. unfold draw.
  pose proof (revaluation_draws v (np_random w)) as E.
  destruct (Investment.revaluation v (np_random w)) as [v' st]. simpl in *.
  now rewrite E.
Qed.

#[local] Hint Resolve revaluation_samples : keeps.

Lemma step_month_samples :
  keeps (fun w => NpRandom.samples (np_random w)) step_month.
Proof.
  unfold step_month, events_phase, Event_apply, incomes_phase,
    expenses_phase, dividends_phase, revaluation_phase, yearly_phase,
    sweep_phase, sweep_entry, get_investment, _apply_increments_if_cycle_end,
    item, add_cash, sub_cash, update_investment, call_action, assign_amount.
  keeps_walk.
Qed.

(** Without volatility, a revaluation draws a sample and changes
    nothing. *)
Lemma quiet_revaluation v st :
  Num.leb (Investment.volatility v) Num.zero = true ->
  (forall n, (0 <= NpRandom.samples st n)%Q) ->
  fst (Investment.revaluation v st) = v.
Proof.
  intros Hv Hn. unfold Investment.revaluation.
  destruct (Investment.active v); [|reflexivity].
  unfold NpRandom.rand, NpRandom.next.
  assert (Num.gtb (Investment.volatility v)
            (Py (Finite (NpRandom.samples st (NpRandom.consumed st))))
          = false) as ->; [|reflexivity].
  specialize (Hn (NpRandom.consumed st)).
  unfold Num.gtb, Num.leb, Num.fle in *. simpl in *.
  destruct (Num.val (Investment.volatility v)) as [q| | |]; simpl in *;
    try discriminate; try reflexivity.
  change (inject_Z 0) with 0%Q in Hv.
  assert (q <= 0)%Q as Hq.
  { apply orb_true_iff in Hv. destruct Hv as [H|H].
    - apply Qltb_lt in H. lra.
    - apply Qeq_bool_iff in H. lra. }
  apply Qltb_ge. lra.
Qed.

Lemma alter_same {X} (l : list X) i x :
  l !! i = Some x -> alter (fun _ => x) i l = l.
Proof.
  intros H. apply list_eq. intros j. destruct (decide (i = j)) as [->|Hne].
  - rewrite list_lookup_alter_eq, H. reflexivity.
  - now rewrite list_lookup_alter_ne.
Qed.

Lemma revaluation_phase_quiet s :
  safe (fun w => quiet w /\ self w = s) revaluation_phase.
Proof.
  unfold revaluation_phase.
  apply safe_bind; [apply safe_gets|intros n].
  apply safe_for_range. intros i [] w [[Hv Hn] <-].
  unfold item, update_investment, bind, gets. cbn [fst snd].
  destruct (FinanceManager.investments (self w) !! i) as [v|] eqn:Hi;
    [|simpl; split; [split; [split; assumption|reflexivity]|eauto]].
  pose proof (Forall_lookup_1 _ _ _ _ Hv Hi) as Hq. simpl in Hq.
  pose proof (quiet_revaluation v (np_random w) Hq Hn) as Hr.
  pose proof (revaluation_draws v (np_random w)) as Hd.
  unfold draw. destruct (Investment.revaluation v (np_random w)) as [v' st].
  simpl in Hr, Hd. subst v' st. unfold update. cbn [fst snd self np_random].
  rewrite (alter_same _ _ _ Hi), set_investments_same.
  split; [|eauto]. split; [|reflexivity]. split; [exact Hv|exact Hn].
Qed.

Lemma revaluation_phase_unseeded : unseeded revaluation_phase.
Proof.
  intros w1 w2 H1 H2 E.
  destruct (revaluation_phase_quiet (self w1) w1 (conj H1 eq_refl))
    as [[Hq1 Hs1] [[] Hr1]].
  destruct (revaluation_phase_quiet (self w2) w2 (conj H2 eq_refl))
    as [[Hq2 Hs2] [[] Hr2]].
  rewrite Hr1, Hr2, Hs1, Hs2. auto.
Qed.

Lemma step_month_unseeded : unseeded step_month.
Proof.
  unfold step_month.
  repeat first
    [ apply revaluation_phase_unseeded
    | apply unseeded_of;
        [ unfold events_phase, Event_apply, incomes_phase, expenses_phase,
            dividends_phase, yearly_phase, sweep_phase, sweep_entry,
            get_investment, _apply_increments_if_cycle_end,
            total_investments, _targets_status, Target_is_reached,
            Target_status, total_monthly_income_equivalent,
            total_monthly_expense_equivalent,
            total_dividends_monthly_equivalent, sum_of, item,
            add_cash, sub_cash, update_investment;
          solve [engine_walk]
        | apply quiet_preserved;
          [ first [ solve [auto with structure keeps]
                  | solve [structure_walk]
                  | solve [apply keeps_update; intros; reflexivity]
                  | apply keeps_ret | apply keeps_gets ]
          | unfold events_phase, Event_apply, incomes_phase, expenses_phase,
              dividends_phase, yearly_phase, sweep_phase, sweep_entry,
              get_investment, _apply_increments_if_cycle_end, item,
              add_cash, sub_cash, update_investment, call_action,
              assign_amount;
            solve [keeps_walk] ] ]
    | apply unseeded_bind; [|intros] ].
Qed.

(** X12: without volatility the generator plays no part.  If no
    investment has a volatility above zero, two runs from the same engine
    return the same snapshots, or raise the same exception, and leave the
    same engine, whatever the states (the seeds) of their generators. *)
Theorem quiet_run_ignores_generator (w1 w2 : World) (months : Z) :
  quiet w1 -> quiet w2 -> self w1 = self w2 ->
  fst (run months w1) = fst (run months w2)
  /\ self (snd (run months w1)) = self (snd (run months w2)).
Proof.
  intros H1 H2 E.
  assert (unseeded (run months)) as Hr.
  { unfold run. apply unseeded_for_range. intros _ results.
    apply unseeded_bind; [apply step_month_unseeded|intros s].
    apply unseeded_of; [apply engine_only_ret|apply preserves_ret]. }
  destruct (Hr w1 w2 H1 H2 E) as (Hf & Hs & _). now split.
Qed.

Lemma quiet_run_ignores_generator_witness :
  quiet (two_funds true) /\ quiet two_funds_halves
  /\ self (two_funds true) = self two_funds_halves
  /\ fst (run 12 (two_funds true)) = fst (run 12 two_funds_halves)
  /\ self (snd (run 12 (two_funds true)))
     = self (snd (run 12 two_funds_halves)).
Proof.
  assert (quiet (two_funds true)) as H1.
  { split; [repeat constructor|]. intros n. simpl. lra. }
  assert (quiet two_funds_halves) as H2.
  { split; [repeat constructor|]. intros n. simpl. lra. }
  split; [exact H1|]. split; [exact H2|]. split; [reflexivity|].
  exact (quiet_run_ignores_generator (two_funds true) two_funds_halves 12
           H1 H2 eq_refl).
Defined.

(** ** Dividends *)

Lemma dividends_phase_reinvested c :
  preserves (fun w => FinanceManager.reinvest_dividends (self w) = true
                      /\ FinanceManager.cash (self w) = c)
    dividends_phase.
Proof.
  unfold dividends_phase. apply preserves_bind; [apply preserves_gets|].
  intros n. apply preserves_for_range. intros k acc w [Hr Hc].
  straight; simpl; auto; congruence.
Qed.

Lemma dividends_phase_paid_out invs :
  preserves (fun w => FinanceManager.reinvest_dividends (self w) = false
                      /\ FinanceManager.investments (self w) = invs)
    dividends_phase.
Proof.
  unfold dividends_phase. apply preserves_bind; [apply preserves_gets|].
  intros n. apply preserves_for_range. intros k acc w [Hr Hc].
  straight; simpl; auto; congruence.
Qed.

